(** * Slot registry chaincode (Chain.go): a shallow embedding and its properties

    The two contract operations of [Chain.go], [UpdateStatus] and
    [GetAllSlots], are written as interaction trees over the calls they make
    to their environment: the process clock ([time.Now]) and the chaincode
    stub ([PutState], [GetStateByRange] and the iterator methods).  The [for]
    loop of [GetAllSlots] is an [ITree.iter], so the program text carries no
    fuel; fuel only appears in the executor [exec] that runs a tree against a
    host.

    Go strings are byte sequences and are modelled by [string]; a [[]byte] is
    a [list ascii]. *)

From Stdlib Require Import String Ascii List NArith ZArith Lia Bool Arith.
From Stdlib Require Import DecimalString OrderedTypeEx.
From ITree Require Import ITree.
Import ListNotations ITreeNotations.
Local Open Scope itree_scope.
Local Open Scope string_scope.
Local Open Scope list_scope.

Set Implicit Arguments.

(** ** Go values shared by the whole development *)

Definition bytes : Type := list ascii.

(** A Go [error] is [nil] or a value carrying a message. *)
Definition error : Type := option string.

Definition bytes_of_string (s : string) : bytes := list_ascii_of_string s.
Definition string_of_bytes (b : bytes) : string := string_of_list_ascii b.

(** The four-field record of [Chain.go], in declaration order. *)
Record ParkingSlot : Type := mkSlot {
  ID : string;
  Location : string;
  Occupied : bool;
  Timestamp : string
}.

(** The zero value that [var slot ParkingSlot] declares. *)
Definition zeroSlot : ParkingSlot := mkSlot "" "" false "".

(** ** time.Time and the RFC3339 layout

    A clock reading is kept in its civil form, the fields [Format] prints;
    [zoneOffset] is in seconds east of UTC. *)
Record Time : Type := mkTime {
  year : nat; month : nat; day : nat;
  hour : nat; minute : nat; second : nat;
  zoneOffset : Z
}.

Definition decimal (n : nat) : string := NilZero.string_of_uint (Nat.to_uint n).

Fixpoint zeros (k : nat) : string :=
  match k with
  | O => ""
  | S k' => String "0" (zeros k')
  end.

(** [appendInt(b, n, width)] of package time: decimal, zero-padded. *)
Definition appendInt (n width : nat) : string :=
  let d := decimal n in (zeros (width - String.length d) ++ d)%string.

(** The ["Z07:00"] element of the layout. *)
Definition formatZone (offset : Z) : string :=
  if (offset =? 0)%Z then "Z"
  else
    let zone := Z.quot offset 60 in
    let sign := if (zone <? 0)%Z then "-" else "+" in
    let m := Z.to_nat (Z.abs zone) in
    (sign ++ appendInt (m / 60) 2 ++ ":" ++ appendInt (m mod 60) 2)%string.

(** [t.Format(time.RFC3339)], layout ["2006-01-02T15:04:05Z07:00"]. *)
Definition Format_RFC3339 (t : Time) : string :=
  (appendInt (year t) 4 ++ "-" ++ appendInt (month t) 2 ++ "-" ++ appendInt (day t) 2
   ++ "T" ++ appendInt (hour t) 2 ++ ":" ++ appendInt (minute t) 2 ++ ":"
   ++ appendInt (second t) 2 ++ formatZone (zoneOffset t))%string.


(** ** unicode/utf8

    Runes and byte values are numbers in [N]. *)
Module utf8.
Local Open Scope N_scope.

Definition RuneError : N := 0xFFFD.
Definition RuneSelf : N := 0x80.
Definition MaxRune : N := 0x10FFFF.

(** The [first] table with its accept ranges: for a lead byte, the length of
    the sequence and the bounds of the second byte; [None] is the entry
    [xx] of an invalid lead byte. *)
Definition first (p0 : N) : option (nat * N * N) :=
  if p0 <? 0xC2 then None
  else if p0 <=? 0xDF then Some (2%nat, 0x80, 0xBF)
  else if p0 =? 0xE0 then Some (3%nat, 0xA0, 0xBF)
  else if p0 =? 0xED then Some (3%nat, 0x80, 0x9F)
  else if p0 <=? 0xEF then Some (3%nat, 0x80, 0xBF)
  else if p0 =? 0xF0 then Some (4%nat, 0x90, 0xBF)
  else if p0 <=? 0xF3 then Some (4%nat, 0x80, 0xBF)
  else if p0 =? 0xF4 then Some (4%nat, 0x80, 0x8F)
  else None.

(** A continuation byte lies in [locb..hicb]. *)
Definition cont (b : N) : bool := (0x80 <=? b) && (b <=? 0xBF).

(** [utf8.DecodeRune]: the first rune of [p] and its width in bytes;
    [(RuneError, 1)] for an encoding that is invalid or cut short. *)
Definition DecodeRune (p : bytes) : N * nat :=
  match p with
  | [] => (RuneError, 0%nat)
  | c0 :: p1 =>
    let p0 := N_of_ascii c0 in
    if p0 <? RuneSelf then (p0, 1%nat)
    else
      match first p0, p1 with
      | None, _ | Some _, [] => (RuneError, 1%nat)
      | Some (sz, lo, hi), c1 :: p2 =>
        let b1 := N_of_ascii c1 in
        if (b1 <? lo) || (hi <? b1) then (RuneError, 1%nat)
        else if (sz <=? 2)%nat then
          (N.lor (N.shiftl (N.land p0 0x1F) 6) (N.land b1 0x3F), 2%nat)
        else
          match p2 with
          | [] => (RuneError, 1%nat)
          | c2 :: p3 =>
            let b2 := N_of_ascii c2 in
            if negb (cont b2) then (RuneError, 1%nat)
            else if (sz <=? 3)%nat then
              (N.lor (N.lor (N.shiftl (N.land p0 0x0F) 12) (N.shiftl (N.land b1 0x3F) 6))
                     (N.land b2 0x3F), 3%nat)
            else
              match p3 with
              | [] => (RuneError, 1%nat)
              | c3 :: _ =>
                let b3 := N_of_ascii c3 in
                if negb (cont b3) then (RuneError, 1%nat)
                else
                  (N.lor (N.lor (N.lor (N.shiftl (N.land p0 0x07) 18)
                                       (N.shiftl (N.land b1 0x3F) 12))
                                (N.shiftl (N.land b2 0x3F) 6))
                         (N.land b3 0x3F), 4%nat)
              end
          end
      end
  end.

Definition byte (n : N) : ascii := ascii_of_N (N.land n 0xFF).

(** [utf8.EncodeRune]; surrogates and values above [MaxRune] are written as
    [RuneError]. *)
Definition EncodeRune (r : N) : bytes :=
  let three (r : N) :=
    [byte (N.lor 0xE0 (N.shiftr r 12));
     byte (N.lor 0x80 (N.land (N.shiftr r 6) 0x3F));
     byte (N.lor 0x80 (N.land r 0x3F))] in
  if r <=? 0x7F then [byte r]
  else if r <=? 0x7FF then
    [byte (N.lor 0xC0 (N.shiftr r 6)); byte (N.lor 0x80 (N.land r 0x3F))]
  else if (MaxRune <? r) || ((0xD800 <=? r) && (r <=? 0xDFFF)) then three RuneError
  else if r <=? 0xFFFF then three r
  else
    [byte (N.lor 0xF0 (N.shiftr r 18));
     byte (N.lor 0x80 (N.land (N.shiftr r 12) 0x3F));
     byte (N.lor 0x80 (N.land (N.shiftr r 6) 0x3F));
     byte (N.lor 0x80 (N.land r 0x3F))].

(** What a JSON round trip does to a string: each byte that is not part of
    a well-formed encoding becomes U+FFFD, everything else is kept.  The
    fuel is the length of the input. *)
Fixpoint coerce_loop (fuel : nat) (s : bytes) : bytes :=
  match fuel, s with
  | O, _ | _, [] => []
  | S n, c :: rest =>
    if N_of_ascii c <? RuneSelf then c :: coerce_loop n rest
    else
      let (r, size) := DecodeRune s in
      EncodeRune r ++ coerce_loop n (skipn size s)
  end.

Definition coerce (s : bytes) : bytes := coerce_loop (length s) s.

(** [utf8.Valid]: no position decodes to [(RuneError, 1)]. *)
Fixpoint valid_loop (fuel : nat) (s : bytes) : bool :=
  match fuel, s with
  | O, _ | _, [] => true
  | S n, c :: rest =>
    if N_of_ascii c <? RuneSelf then valid_loop n rest
    else
      let (r, size) := DecodeRune s in
      if (r =? RuneError) && (size =? 1)%nat then false
      else valid_loop n (skipn size s)
  end.

Definition Valid (s : bytes) : bool := valid_loop (length s) s.

Definition ValidString (s : string) : bool := Valid (bytes_of_string s).

End utf8.


(** ** encoding/json: Marshal *)

(** The Go values [json.Marshal] can be handed, by kind.  Channels and
    functions are the kinds the encoder refuses. *)
#[warnings="-register-all"]
Inductive GoValue : Type :=
| VBool (b : bool)
| VString (s : string)
| VInt (i : Z)
| VChan
| VFunc
| VStruct (fields : list (string * GoValue)).

(** A Go type whose values can be passed as [interface{}]; for a struct the
    fields are listed under their [json] tag, in declaration order. *)
Class GoType (A : Type) : Type := valueOf : A -> GoValue.

#[export] Instance ParkingSlot_GoType : GoType ParkingSlot := fun slot =>
  VStruct [("id", VString (ID slot));
           ("location", VString (Location slot));
           ("occupied", VBool (Occupied slot));
           ("timestamp", VString (Timestamp slot))].

Module encode.
Local Open Scope N_scope.

Definition dquote : ascii := ascii_of_N 34.
Definition backslash : ascii := ascii_of_N 92.

(** [hex[n]] for a nibble. *)
Definition hex (n : N) : ascii :=
  if n <? 10 then ascii_of_N (48 + n) else ascii_of_N (87 + n).

(** [htmlSafeSet]: the ASCII bytes written as they are. *)
Definition htmlSafeSet (b : N) : bool :=
  (0x20 <=? b) && negb ((b =? 34) || (b =? 38) || (b =? 60) || (b =? 62) || (b =? 92)).

(** The escape written for an ASCII byte outside [htmlSafeSet]: a short
    escape for the quote, the backslash, [\n], [\r] and [\t], and [\u00XX]
    for the other bytes below 0x20 and for [<], [>] and [&].  (Releases from
    Go 1.22 on also write [\b] and [\f] in short form; the decoder reads
    both forms alike.) *)
Definition escapeByte (c : ascii) : bytes :=
  let b := N_of_ascii c in
  if (b =? 92) || (b =? 34) then [backslash; c]
  else if b =? 10 then [backslash; "n"%char]
  else if b =? 13 then [backslash; "r"%char]
  else if b =? 9 then [backslash; "t"%char]
  else [backslash; "u"%char; "0"%char; "0"%char; hex (N.shiftr b 4); hex (N.land b 0xF)].

(** The escape written for a byte that is not valid UTF-8, and the start of
    the one written for U+2028 and U+2029. *)
Definition replacementEscape : bytes := bytes_of_string "\ufffd".
Definition separatorEscape : bytes := bytes_of_string "\u202".

(** The loop of [encodeState.string] with [escapeHTML] set, between the two
    quotes.  The fuel is the length of the input. *)
Fixpoint escape_loop (fuel : nat) (s : bytes) : bytes :=
  match fuel, s with
  | O, _ | _, [] => []
  | S n, c :: rest =>
    let b := N_of_ascii c in
    if b <? utf8.RuneSelf then
      if htmlSafeSet b then c :: escape_loop n rest
      else escapeByte c ++ escape_loop n rest
    else
      let (r, size) := utf8.DecodeRune s in
      if (r =? utf8.RuneError) && (size =? 1)%nat then
        replacementEscape ++ escape_loop n rest
      else if (r =? 0x2028) || (r =? 0x2029) then
        separatorEscape ++ hex (N.land r 0xF) :: escape_loop n (skipn size s)
      else firstn size s ++ escape_loop n (skipn size s)
  end.

Definition encodeString (s : string) : bytes :=
  let src := bytes_of_string s in
  dquote :: escape_loop (length src) src ++ [dquote].

Definition encodeInt (i : Z) : bytes :=
  bytes_of_string (NilZero.string_of_int (Z.to_int i)).

(** The value encoders, by kind; a struct is written as an object with its
    fields in order. *)
Fixpoint encodeValue (v : GoValue) : bytes + string :=
  match v with
  | VBool b => inl (bytes_of_string (if b then "true" else "false"))
  | VString s => inl (encodeString s)
  | VInt i => inl (encodeInt i)
  | VChan => inr "json: unsupported type: chan"
  | VFunc => inr "json: unsupported type: func"
  | VStruct fields =>
    let fix members (first : bool) (fs : list (string * GoValue)) : bytes + string :=
      match fs with
      | [] => inl ["}"%char]
      | (name, fv) :: fs' =>
        match encodeValue fv, members false fs' with
        | inl b, inl tl =>
          inl ((if first then ["{"%char] else [","%char])
                 ++ encodeString name ++ ":"%char :: b ++ tl)
        | inr e, _ | _, inr e => inr e
        end
      end in
    match fields with
    | [] => inl (bytes_of_string "{}")
    | _ => members true fields
    end
  end.

End encode.


(** ** encoding/json: Unmarshal into a [*ParkingSlot] *)

(** A parsed JSON text.  A number keeps its literal: no field of
    [ParkingSlot] can hold one. *)
#[warnings="-register-all"]
Inductive JSON : Type :=
| JNull
| JBool (b : bool)
| JNumber (lit : bytes)
| JString (s : string)
| JArray (elements : list JSON)
| JObject (members : list (string * JSON)).

Module scanner.
Local Open Scope N_scope.

Definition isSpace (c : ascii) : bool :=
  let b := N_of_ascii c in (b =? 32) || (b =? 9) || (b =? 13) || (b =? 10).

Fixpoint skipSpace (s : bytes) : bytes :=
  match s with
  | c :: rest => if isSpace c then skipSpace rest else s
  | [] => []
  end.

Definition hexDigit (c : ascii) : option N :=
  let b := N_of_ascii c in
  if (48 <=? b) && (b <=? 57) then Some (b - 48)
  else if (97 <=? b) && (b <=? 102) then Some (b - 87)
  else if (65 <=? b) && (b <=? 70) then Some (b - 55)
  else None.

(** [getu4] on the text that follows [\u]: the four hex digits as a rune. *)
Definition getu4 (s : bytes) : option (N * bytes) :=
  match s with
  | c1 :: c2 :: c3 :: c4 :: rest =>
    match hexDigit c1, hexDigit c2, hexDigit c3, hexDigit c4 with
    | Some d1, Some d2, Some d3, Some d4 =>
      Some (((d1 * 16 + d2) * 16 + d3) * 16 + d4, rest)
    | _, _, _, _ => None
    end
  | _ => None
  end.

Definition isSurrogate (r : N) : bool := (0xD800 <=? r) && (r <? 0xE000).

(** [utf16.DecodeRune]. *)
Definition utf16_DecodeRune (r1 r2 : N) : N :=
  if (0xD800 <=? r1) && (r1 <? 0xDC00) && (0xDC00 <=? r2) && (r2 <? 0xE000)
  then N.lor (N.shiftl (r1 - 0xD800) 10) (r2 - 0xDC00) + 0x10000
  else utf8.RuneError.

(** The character a one-letter escape stands for. *)
Definition simpleEscape (c : ascii) : option ascii :=
  let b := N_of_ascii c in
  if (b =? 34) || (b =? 92) || (b =? 47) then Some c
  else if b =? 98 then Some (ascii_of_N 8)
  else if b =? 102 then Some (ascii_of_N 12)
  else if b =? 110 then Some (ascii_of_N 10)
  else if b =? 114 then Some (ascii_of_N 13)
  else if b =? 116 then Some (ascii_of_N 9)
  else None.

Definition cons_fst {A B} (a : A) (r : option (list A * B)) : option (list A * B) :=
  match r with
  | Some (l, rest) => Some (a :: l, rest)
  | None => None
  end.

Definition app_fst {A B} (a : list A) (r : option (list A * B)) : option (list A * B) :=
  match r with
  | Some (l, rest) => Some (a ++ l, rest)
  | None => None
  end.

(** A string literal after its opening quote: the scanner's string states
    and [unquoteBytes] in one pass.  Returns the unquoted bytes and the text
    after the closing quote; [None] is a syntax error.  The fuel is the
    length of the input. *)
Fixpoint unquote (fuel : nat) (s : bytes) : option (bytes * bytes) :=
  match fuel, s with
  | O, _ | _, [] => None
  | S n, c :: rest =>
    let b := N_of_ascii c in
    if b =? 34 then Some ([], rest)
    else if b =? 92 then
      match rest with
      | [] => None
      | e :: rest1 =>
        match simpleEscape e with
        | Some ch => cons_fst ch (unquote n rest1)
        | None =>
          if N_of_ascii e =? 117 then
            match getu4 rest1 with
            | None => None
            | Some (rr, rest2) =>
              let single := app_fst (utf8.EncodeRune (if isSurrogate rr then utf8.RuneError else rr))
                                    (unquote n rest2) in
              if isSurrogate rr then
                match rest2 with
                | b1 :: u1 :: rest3 =>
                  if (N_of_ascii b1 =? 92) && (N_of_ascii u1 =? 117) then
                    match getu4 rest3 with
                    | Some (rr1, rest4) =>
                      let dec := utf16_DecodeRune rr rr1 in
                      if dec =? utf8.RuneError then single
                      else app_fst (utf8.EncodeRune dec) (unquote n rest4)
                    | None => single
                    end
                  else single
                | _ => single
                end
              else single
            end
          else None
        end
      end
    else if b <? 32 then None
    else if b <? utf8.RuneSelf then cons_fst c (unquote n rest)
    else
      let (rr, size) := utf8.DecodeRune s in
      app_fst (utf8.EncodeRune rr) (unquote n (skipn size s))
  end.

Definition isDigit (c : ascii) : bool :=
  let b := N_of_ascii c in (48 <=? b) && (b <=? 57).

Fixpoint digits (s : bytes) : bytes * bytes :=
  match s with
  | c :: rest =>
    if isDigit c then let (d, r) := digits rest in (c :: d, r) else ([], s)
  | [] => ([], [])
  end.

(** A number literal: an optional minus sign; a single zero, or a nonzero
    digit and any digits; optionally a point and one digit or more;
    optionally an exponent mark, a sign and one digit or more. *)
Definition number (s : bytes) : option (bytes * bytes) :=
  let (sign, s1) :=
    match s with
    | c :: r => if N_of_ascii c =? 45 then ([c], r) else ([], s)
    | [] => ([], s)
    end in
  match s1 with
  | [] => None
  | c :: r =>
    if negb (isDigit c) then None
    else
      let (int, s2) := if N_of_ascii c =? 48 then ([c], r) else digits s1 in
      let frac :=
        match s2 with
        | p :: r2 =>
          if N_of_ascii p =? 46 then
            match digits r2 with
            | ([], _) => None
            | (d, r3) => Some (p :: d, r3)
            end
          else Some ([], s2)
        | [] => Some ([], s2)
        end in
      match frac with
      | None => None
      | Some (fr, s3) =>
        let exp :=
          match s3 with
          | e :: r3 =>
            if (N_of_ascii e =? 101) || (N_of_ascii e =? 69) then
              let (sg, r4) :=
                match r3 with
                | g :: r' =>
                  if (N_of_ascii g =? 43) || (N_of_ascii g =? 45) then ([g], r') else ([], r3)
                | [] => ([], r3)
                end in
              match digits r4 with
              | ([], _) => None
              | (d, r5) => Some (e :: sg ++ d, r5)
              end
            else Some ([], s3)
          | [] => Some ([], s3)
          end in
        match exp with
        | None => None
        | Some (ex, s4) => Some (sign ++ int ++ fr ++ ex, s4)
        end
      end
  end.

(** [literal w s]: the text [s] after the keyword [w]. *)
Fixpoint literal (w : bytes) (s : bytes) : option bytes :=
  match w, s with
  | [], _ => Some s
  | a :: w', c :: s' => if Ascii.eqb a c then literal w' s' else None
  | _ :: _, [] => None
  end.

(** The scanner gives up on an object or array that is nested deeper. *)
Definition maxNestingDepth : N := 10000.

(** One JSON value, after optional white space, and the text after it;
    [depth] counts the objects and arrays the value lies in
    ([len(s.parseState)]), and opening one more than [maxNestingDepth] is a
    syntax error ([pushParseState]).  Every call passes less fuel to the
    next; [2 * length s + 2] is enough for any text [s]. *)
Fixpoint value (fuel : nat) (depth : N) (s : bytes) : option (JSON * bytes) :=
  match fuel with
  | O => None
  | S n =>
    match skipSpace s with
    | [] => None
    | c :: rest =>
      let b := N_of_ascii c in
      if b =? 123 then
        if maxNestingDepth <? depth + 1 then None
        else
          match skipSpace rest with
          | c' :: rest' =>
            if N_of_ascii c' =? 125 then Some (JObject [], rest')
            else
              match members n (depth + 1) rest with
              | Some (ms, r) => Some (JObject ms, r)
              | None => None
              end
          | [] => None
          end
      else if b =? 91 then
        if maxNestingDepth <? depth + 1 then None
        else
          match skipSpace rest with
          | c' :: rest' =>
            if N_of_ascii c' =? 93 then Some (JArray [], rest')
            else
              match elements n (depth + 1) rest with
              | Some (vs, r) => Some (JArray vs, r)
              | None => None
              end
          | [] => None
          end
      else if b =? 34 then
        match unquote (length rest) rest with
        | Some (str, r) => Some (JString (string_of_bytes str), r)
        | None => None
        end
      else if b =? 116 then
        match literal (bytes_of_string "rue") rest with
        | Some r => Some (JBool true, r)
        | None => None
        end
      else if b =? 102 then
        match literal (bytes_of_string "alse") rest with
        | Some r => Some (JBool false, r)
        | None => None
        end
      else if b =? 110 then
        match literal (bytes_of_string "ull") rest with
        | Some r => Some (JNull, r)
        | None => None
        end
      else
        match number (c :: rest) with
        | Some (lit, r) => Some (JNumber lit, r)
        | None => None
        end
    end
  end
with elements (fuel : nat) (depth : N) (s : bytes) : option (list JSON * bytes) :=
  match fuel with
  | O => None
  | S n =>
    match value n depth s with
    | None => None
    | Some (v, r) =>
      match skipSpace r with
      | c :: r' =>
        if N_of_ascii c =? 44 then cons_fst v (elements n depth r')
        else if N_of_ascii c =? 93 then Some ([v], r')
        else None
      | [] => None
      end
    end
  end
with members (fuel : nat) (depth : N) (s : bytes) : option (list (string * JSON) * bytes) :=
  match fuel with
  | O => None
  | S n =>
    match skipSpace s with
    | q :: r0 =>
      if N_of_ascii q =? 34 then
        match unquote (length r0) r0 with
        | None => None
        | Some (key, r1) =>
          match skipSpace r1 with
          | colon :: r2 =>
            if N_of_ascii colon =? 58 then
              match value n depth r2 with
              | None => None
              | Some (v, r3) =>
                match skipSpace r3 with
                | c :: r4 =>
                  if N_of_ascii c =? 44 then cons_fst (string_of_bytes key, v) (members n depth r4)
                  else if N_of_ascii c =? 125 then Some ([(string_of_bytes key, v)], r4)
                  else None
                | [] => None
                end
              end
            else None
          | [] => None
          end
        end
      else None
    | [] => None
    end
  end.

(** [checkValid] and the parse: one value, then only white space. *)
Definition parse (data : bytes) : option JSON :=
  match value (2 * length data + 2) 0 data with
  | Some (v, rest) =>
    match skipSpace rest with
    | [] => Some v
    | _ :: _ => None
    end
  | None => None
  end.

End scanner.

Module decode.
Local Open Scope N_scope.

(** [foldName]: ASCII letters in upper case, and the two runes that fold to
    an ASCII letter (U+017F to S, U+212A to K); other runes are kept. *)
Fixpoint foldName_loop (fuel : nat) (s : bytes) : bytes :=
  match fuel, s with
  | O, _ | _, [] => []
  | S n, c :: rest =>
    let b := N_of_ascii c in
    if b <? utf8.RuneSelf then
      (if (97 <=? b) && (b <=? 122) then ascii_of_N (b - 32) else c) :: foldName_loop n rest
    else
      let (r, size) := utf8.DecodeRune s in
      (if r =? 0x17F then ["S"%char]
       else if r =? 0x212A then ["K"%char]
       else utf8.EncodeRune r) ++ foldName_loop n (skipn size s)
  end.

Definition foldName (s : string) : bytes :=
  let b := bytes_of_string s in foldName_loop (length b) b.

Definition equalFold (s t : string) : bool :=
  if list_eq_dec ascii_dec (foldName s) (foldName t) then true else false.

(** The fields of [ParkingSlot] a key can select. *)
Variant Field : Type := fID | fLocation | fOccupied | fTimestamp.

Definition fieldName (f : Field) : string :=
  match f with
  | fID => "id"
  | fLocation => "location"
  | fOccupied => "occupied"
  | fTimestamp => "timestamp"
  end.

Definition fields : list Field := [fID; fLocation; fOccupied; fTimestamp].

(** The field of a key: the one with this exact name, or else the first
    whose name equals it up to case folding. *)
Definition findField (key : string) : option Field :=
  match find (fun f => String.eqb (fieldName f) key) fields with
  | Some f => Some f
  | None => find (fun f => equalFold (fieldName f) key) fields
  end.

(** Storing a value in a field: a string into a string field and a boolean
    into the bool field; [null] leaves the field as it is; anything else is
    an [UnmarshalTypeError] and leaves the field as it is. *)
Definition store (f : Field) (v : JSON) (slot : ParkingSlot) : ParkingSlot * error :=
  let mismatch := (slot, Some "json: cannot unmarshal into Go struct field") in
  match v with
  | JNull => (slot, None)
  | JString s =>
    match f with
    | fID => (mkSlot s (Location slot) (Occupied slot) (Timestamp slot), None)
    | fLocation => (mkSlot (ID slot) s (Occupied slot) (Timestamp slot), None)
    | fTimestamp => (mkSlot (ID slot) (Location slot) (Occupied slot) s, None)
    | fOccupied => mismatch
    end
  | JBool b =>
    match f with
    | fOccupied => (mkSlot (ID slot) (Location slot) b (Timestamp slot), None)
    | _ => mismatch
    end
  | JNumber _ | JArray _ | JObject _ => mismatch
  end.

(** The members of an object, in order; the first error is the one kept
    and decoding goes on after it. *)
Fixpoint object (ms : list (string * JSON)) (slot : ParkingSlot) (saved : error)
  : ParkingSlot * error :=
  match ms with
  | [] => (slot, saved)
  | (key, v) :: ms' =>
    match findField key with
    | None => object ms' slot saved
    | Some f =>
      let (slot', e) := store f v slot in
      object ms' slot' (match saved with Some _ => saved | None => e end)
    end
  end.

End decode.

Module json.

(** [json.Marshal]: the encoding and a nil error, or nil and the error. *)
Definition Marshal {A} `{GoType A} (v : A) : bytes * error :=
  match encode.encodeValue (valueOf v) with
  | inl b => (b, None)
  | inr e => ([], Some e)
  end.

(** [json.Unmarshal(data, &slot)]: what [slot] holds afterwards, and the
    error.  A text that is not valid JSON leaves [slot] untouched. *)
Definition Unmarshal (data : bytes) (slot : ParkingSlot) : ParkingSlot * error :=
  match scanner.parse data with
  | None => (slot, Some "json: syntax error")
  | Some (JObject ms) => decode.object ms slot None
  | Some JNull => (slot, None)
  | Some _ => (slot, Some "json: cannot unmarshal into Go value of type main.ParkingSlot")
  end.

End json.

(** ** The environment of an invocation

    What the contract can ask of its surroundings: the clock of the process
    it runs in, and the stub of the transaction context.  A nil interface or
    pointer in an answer is [None]. *)

(** [queryresult.KV]. *)
Record KV : Type := mkKV { Key : string; Value : bytes }.

(** A [StateQueryIteratorInterface] that is not nil: the host's handle of a
    range scan. *)
Definition Iterator : Type := nat.

Variant envE : Type -> Type :=
| time_Now : envE Time
| GetTxTimestamp : envE (Time * error)
| GetState (key : string) : envE (bytes * error)
| PutState (key : string) (value : bytes) : envE error
| GetStateByRange (startKey endKey : string) : envE (option Iterator * error)
| HasNext (it : Iterator) : envE bool
| Next (it : Iterator) : envE (option KV * error)
| Close (it : Iterator) : envE error.

(** How a Go call ends: it returns, or it panics (here always a nil
    dereference). *)
Variant Outcome (A : Type) : Type :=
| Returned (a : A)
| Panicked.
Arguments Panicked {A}.

(** ** Chain.go *)

(** [UpdateStatus]: the error of [json.Marshal] is dropped, the one of
    [PutState] is the result. *)
Definition UpdateStatus (id : string) (occupied : bool) (location : string)
  : itree envE error :=
  now <- ITree.trigger time_Now;;
  let slot := {| ID := id;
                 Location := location;
                 Occupied := occupied;
                 Timestamp := Format_RFC3339 now |} in
  let '(slotJSON, _) := json.Marshal slot in
  ITree.trigger (PutState id slotJSON).

(** The body of the [for] loop of [GetAllSlots], from the slots gathered so
    far: [inl] goes round again, [inr] leaves the function body.  The errors
    of [Next] and of [json.Unmarshal] are dropped; reading [.Value] of a nil
    [queryResponse] panics. *)
Definition GetAllSlots_body (resultsIterator : Iterator) (slots : list ParkingSlot)
  : itree envE (list ParkingSlot + Outcome (list ParkingSlot * error)) :=
  more <- ITree.trigger (HasNext resultsIterator);;
  if more : bool then
    '(queryResponse, _) <- ITree.trigger (Next resultsIterator);;
    match queryResponse with
    | None => Ret (inr Panicked)
    | Some kv =>
      let '(slot, _) := json.Unmarshal (Value kv) zeroSlot in
      Ret (inl (slots ++ [slot]))
    end
  else Ret (inr (Returned (slots, None))).

(** [GetAllSlots]: the error of [GetStateByRange] is dropped, and deferring
    [Close] on a nil iterator panics.  On an iterator that is not nil the
    deferred [Close] runs when the body returns and when it panics. *)
Definition GetAllSlots : itree envE (Outcome (list ParkingSlot * error)) :=
  '(resultsIterator, _) <- ITree.trigger (GetStateByRange "" "");;
  match resultsIterator with
  | None => Ret Panicked
  | Some it =>
    r <- ITree.iter (GetAllSlots_body it) [];;
    ITree.trigger (Close it);;
    Ret r
  end.

(** ** Running a program against a host *)

(** A host answers every call from its state. *)
Definition Handler (W : Type) : Type := forall T, envE T -> W -> W * T.

(** One call and its answer. *)
Variant Event : Type := Ev (T : Type) (e : envE T) (a : T).
Arguments Ev {T}.

Definition Trace : Type := list Event.

Section Exec.
Context {W : Type} (h : Handler W).

(** [exec fuel t w]: the final host state, the calls made and the result
    of [t], if [t] ends within [fuel] steps. *)
Fixpoint exec {R} (fuel : nat) (t : itree envE R) (w : W) : option (W * Trace * R) :=
  match fuel with
  | O => None
  | S n =>
    match observe t with
    | RetF r => Some (w, [], r)
    | TauF t' => exec n t' w
    | VisF e k =>
      let (w', a) := h e w in
      match exec n (k a) w' with
      | Some (w'', tr, r) => Some (w'', Ev e a :: tr, r)
      | None => None
      end
    end
  end.
End Exec.

Definition isWrite (ev : Event) : bool :=
  match ev with
  | Ev (PutState _ _) _ => true
  | _ => false
  end.

Definition isRead (ev : Event) : bool :=
  match ev with
  | Ev (GetState _) _ | Ev (GetStateByRange _ _) _ | Ev (HasNext _) _ | Ev (Next _) _ => true
  | _ => false
  end.

Definition isOpen (ev : Event) : bool :=
  match ev with
  | Ev (GetStateByRange _ _) _ => true
  | _ => false
  end.

Definition isClose (it : Iterator) (ev : Event) : bool :=
  match ev with
  | Ev (Close it') _ => Nat.eqb it it'
  | _ => false
  end.

(** ** A ledger: the host of the contract

    The stub belongs to the hosting runtime, not to the contract.  This
    ledger stands for it where a property is about the world state: a put
    stores the value under its key, replacing what was there, and a range
    scan yields the entries of its range in key order.  The world state is a
    list of entries in ascending key order; a scan takes a snapshot and
    walks it.  The three faults make the host fail a call; a failed call
    changes nothing and hands out nil. *)

Record Cursor : Type := mkCursor { pending : list KV; closed : bool }.

Record World : Type := mkWorld {
  state : list KV;
  wallClock : Time;
  txTimestamp : Time;
  cursors : list Cursor;
  putFault : error;
  rangeFault : error;
  nextFault : error
}.

Module ledger.

Fixpoint get (key : string) (st : list KV) : option bytes :=
  match st with
  | [] => None
  | kv :: rest => if String.eqb (Key kv) key then Some (Value kv) else get key rest
  end.

(** Insertion in key order; an entry with the same key is replaced. *)
Fixpoint put (key : string) (value : bytes) (st : list KV) : list KV :=
  match st with
  | [] => [mkKV key value]
  | kv :: rest =>
    match String.compare key (Key kv) with
    | Eq => mkKV key value :: rest
    | Lt => mkKV key value :: st
    | Gt => kv :: put key value rest
    end
  end.

(** [startKey] is included and [endKey] is not; the empty string is no
    bound. *)
Definition inRange (startKey endKey : string) (kv : KV) : bool :=
  (String.eqb startKey "" || String.leb startKey (Key kv))
  && (String.eqb endKey "" || String.ltb (Key kv) endKey).

Definition cursor (w : World) (it : Iterator) : Cursor :=
  nth it (cursors w) (mkCursor [] true).

Fixpoint setCursor (it : Iterator) (c : Cursor) (cs : list Cursor) : list Cursor :=
  match it, cs with
  | _, [] => []
  | O, _ :: rest => c :: rest
  | S i, c0 :: rest => c0 :: setCursor i c rest
  end.

Definition withState (w : World) (st : list KV) : World :=
  mkWorld st (wallClock w) (txTimestamp w) (cursors w) (putFault w) (rangeFault w) (nextFault w).

Definition withCursors (w : World) (cs : list Cursor) : World :=
  mkWorld (state w) (wallClock w) (txTimestamp w) cs (putFault w) (rangeFault w) (nextFault w).

Definition handle : Handler World := fun T e =>
  match e in envE T return World -> World * T with
  | time_Now => fun w => (w, wallClock w)
  | GetTxTimestamp => fun w => (w, (txTimestamp w, None))
  | GetState key => fun w =>
    (w, (match get key (state w) with Some v => v | None => [] end, None))
  | PutState key value => fun w =>
    match putFault w with
    | Some err => (w, Some err)
    | None => (withState w (put key value (state w)), None)
    end
  | GetStateByRange startKey endKey => fun w =>
    match rangeFault w with
    | Some err => (w, (None, Some err))
    | None =>
      (withCursors w (cursors w ++ [mkCursor (filter (inRange startKey endKey) (state w)) false]),
       (Some (length (cursors w)), None))
    end
  | HasNext it => fun w =>
    (w, match pending (cursor w it) with [] => false | _ :: _ => negb (closed (cursor w it)) end)
  | Next it => fun w =>
    match nextFault w with
    | Some err => (w, (None, Some err))
    | None =>
      match pending (cursor w it) with
      | [] => (w, (None, Some "no more results"))
      | kv :: rest =>
        (withCursors w (setCursor it (mkCursor rest (closed (cursor w it))) (cursors w)),
         (Some kv, None))
      end
    end
  | Close it => fun w =>
    (withCursors w (setCursor it (mkCursor (pending (cursor w it)) true) (cursors w)), None)
  end.

(** A world with nothing stored, no scan open and no fault. *)
Definition empty (clock tx : Time) : World := mkWorld [] clock tx [] None None None.

Definition keyLt (k1 k2 : string) : Prop := String.compare k1 k2 = Lt.

(** Keys strictly ascending: what [put] keeps, starting from [empty]. *)
Inductive sorted : list KV -> Prop :=
| sorted_nil : sorted []
| sorted_cons kv rest :
    Forall (fun kv' => keyLt (Key kv) (Key kv')) rest -> sorted rest -> sorted (kv :: rest).

(** The number of entries stored under a key. *)
Definition keyCount (key : string) (st : list KV) : nat :=
  length (filter (fun kv => String.eqb (Key kv) key) st).

End ledger.

(** What [ITree.iter] does with the answer of a round. *)
Definition iter_next {I R} (body : I -> itree envE (I + R)) (x : I + R) : itree envE R :=
  match x with
  | inl i => Tau (ITree.iter body i)
  | inr r => Ret r
  end.

(** The object [json.Marshal] writes for a slot. *)
Definition encodeSlot (slot : ParkingSlot) : bytes :=
  "{"%char :: encode.encodeString "id" ++ ":"%char :: encode.encodeString (ID slot)
  ++ ","%char :: encode.encodeString "location" ++ ":"%char :: encode.encodeString (Location slot)
  ++ ","%char :: encode.encodeString "occupied" ++ ":"%char
       :: bytes_of_string (if Occupied slot then "true" else "false")
  ++ ","%char :: encode.encodeString "timestamp" ++ ":"%char :: encode.encodeString (Timestamp slot)
  ++ ["}"%char].

(** The slot [UpdateStatus] builds when the clock reads [now]. *)
Definition slotAt (id : string) (occupied : bool) (location : string) (now : Time) : ParkingSlot :=
  {| ID := id; Location := location; Occupied := occupied; Timestamp := Format_RFC3339 now |}.

(** What [GetAllSlots] makes of a stored value. *)
Definition decodeEntry (kv : KV) : ParkingSlot := fst (json.Unmarshal (Value kv) zeroSlot).

(** What a round trip through JSON makes of a string. *)
Definition coerceString (s : string) : string :=
  string_of_bytes (utf8.coerce (bytes_of_string s)).

Definition coerceSlot (slot : ParkingSlot) : ParkingSlot :=
  {| ID := coerceString (ID slot);
     Location := coerceString (Location slot);
     Occupied := Occupied slot;
     Timestamp := coerceString (Timestamp slot) |}.

(** The calls of one round of the loop of [GetAllSlots]: [HasNext] and
    [Next] on the iterator. *)
Definition isScanStep (it : Iterator) (ev : Event) : bool :=
  match ev with
  | Ev (HasNext it') _ | Ev (Next it') _ => Nat.eqb it it'
  | _ => false
  end.

(** The values a run wrote, with their keys, in order. *)
Fixpoint written (tr : Trace) : list (string * bytes) :=
  match tr with
  | [] => []
  | Ev (PutState key value) _ :: rest => (key, value) :: written rest
  | _ :: rest => written rest
  end.

Definition asksTxTimestamp (ev : Event) : bool :=
  match ev with
  | Ev GetTxTimestamp _ => true
  | _ => false
  end.

(** ** Worlds and inputs of the examples *)

Definition noon : Time := mkTime 2024 3 7 12 0 0 0.
Definition afterNoon : Time := mkTime 2024 3 7 12 0 1 0.

(** Nothing stored, no fault; the peer's clock reads the time of the
    transaction. *)
Definition emptyWorld : World := ledger.empty noon noon.

(** The same transaction on a peer whose clock is a second ahead. *)
Definition otherPeer : World := ledger.empty afterNoon noon.

(** One entry whose value is not JSON. *)
Definition corruptWorld : World :=
  mkWorld [mkKV "A" (bytes_of_string "garbage")] noon noon [] None None None.

(** One well-formed entry, on hosts that reject the put, the opening of a
    scan, or its advance. *)
Definition lot1 : ParkingSlot := slotAt "A" true "Lot1" noon.
Definition storedWorld : World :=
  mkWorld [mkKV "A" (encodeSlot lot1)] noon noon [] None None None.
Definition rejectingWorld : World :=
  mkWorld [mkKV "A" (encodeSlot lot1)] noon noon [] (Some "put rejected") None None.
Definition closedWorld : World :=
  mkWorld [mkKV "A" (encodeSlot lot1)] noon noon [] None (Some "scan refused") None.
Definition stallingWorld : World :=
  mkWorld [mkKV "A" (encodeSlot lot1)] noon noon [] None None (Some "scan broken").

(** A location of one byte, 0xFF, which is not valid UTF-8, and U+FFFD. *)
Definition badLocation : string := String (ascii_of_N 255) "".
Definition replacementChar : string :=
  String (ascii_of_N 239) (String (ascii_of_N 191) (String (ascii_of_N 189) "")).

(** An object that names an id and has a member "x" whose value is
    [depth] arrays, one in the other. *)
Definition nested (depth : N) : bytes :=
  "{"%char :: encode.encodeString "id" ++ ":"%char :: encode.encodeString "A"
  ++ ","%char :: encode.encodeString "x" ++ ":"%char
       :: repeat "["%char (N.to_nat depth) ++ repeat "]"%char (N.to_nat depth)
  ++ ["}"%char].

(** ** More on the traces of a scan *)

(** The entry a call handed out, when the call is a [Next] that handed one
    out. *)
Definition yieldOf (ev : Event) : option KV :=
  match ev with
  | Ev e a =>
    match e in envE T return T -> option KV with
    | Next _ => fun a => fst a
    | _ => fun _ => None
    end a
  end.

(** The entries a run was handed, in order. *)
Fixpoint yielded (tr : Trace) : list KV :=
  match tr with
  | [] => []
  | ev :: rest =>
    match yieldOf ev with
    | Some kv => kv :: yielded rest
    | None => yielded rest
    end
  end.

(** The calls of the loop of [GetAllSlots] on an iterator, from its first
    [HasNext] to the call that ends it; the flag says whether it ended in a
    panic.  A round is [HasNext] answered true and then [Next]; the loop
    ends on [HasNext] answered false, or on a [Next] that hands out nil. *)
Inductive scanned (it : Iterator) : Trace -> bool -> Prop :=
| scanned_done : scanned it [Ev (HasNext it) false] false
| scanned_nil e : scanned it [Ev (HasNext it) true; Ev (Next it) (None, e)] true
| scanned_round kv e rest p :
    scanned it rest p ->
    scanned it (Ev (HasNext it) true :: Ev (Next it) (Some kv, e) :: rest) p.

(** Whole rounds only. *)
Inductive rounds (it : Iterator) : Trace -> Prop :=
| rounds_nil : rounds it []
| rounds_cons kv e rest :
    rounds it rest ->
    rounds it (Ev (HasNext it) true :: Ev (Next it) (Some kv, e) :: rest).

Definition panicked {A} (out : Outcome A) : bool :=
  match out with
  | Panicked => true
  | Returned _ => false
  end.

(** ** More on the ledger *)

(** How [GetAllSlots] ends on the ledger: in a panic when the host refuses
    to open the scan, or fails to advance it while an entry is pending;
    otherwise with every entry decoded, under a nil error. *)
Definition ledgerOutcome (w : World) : Outcome (list ParkingSlot * error) :=
  match rangeFault w with
  | Some _ => Panicked
  | None =>
    match nextFault w, state w with
    | Some _, _ :: _ => Panicked
    | _, _ => Returned (map decodeEntry (state w), None)
    end
  end.

Definition notWrite (ev : Event) : bool := negb (isWrite ev).

(** An entry as [UpdateStatus] stores it under a key that is valid UTF-8:
    the encoding of a record whose ID is the key. *)
Definition entryOK (kv : KV) : Prop :=
  utf8.ValidString (Key kv) = true
  /\ exists slot, Value kv = fst (json.Marshal slot) /\ ID slot = Key kv.

(** A world state as the contract builds it from the empty one. *)
Definition registry (st : list KV) : Prop := ledger.sorted st /\ Forall entryOK st.

(** Bytes below 0x80 only. *)
Definition isASCII (b : bytes) : bool := forallb (fun c => (N_of_ascii c <? 128)%N) b.

(** Strings in strictly ascending order. *)
Inductive ascending : list string -> Prop :=
| ascending_nil : ascending []
| ascending_cons k rest :
    Forall (fun k' => ledger.keyLt k k') rest -> ascending rest -> ascending (k :: rest).

(** ** main

    What [main] asks of the contract API and of [fmt].  The chaincode
    handed out by [NewChaincode] is a pointer, nil or not; [main] passes it
    on to [Start] without looking at it. *)

Definition Chaincode : Type := nat.

Variant mainE : Type -> Type :=
| NewChaincode : mainE (option Chaincode * error)
| Start (chaincode : option Chaincode) : mainE error
| Printf (text : string) : mainE unit.

(** [main]: a failed creation is reported and ends the function; a failed
    start is reported. *)
Definition main : itree mainE unit :=
  '(chaincode, err) <- ITree.trigger NewChaincode;;
  match err with
  | Some msg =>
    ITree.trigger (Printf ("Error create parking chaincode: " ++ msg)%string)
  | None =>
    err <- ITree.trigger (Start chaincode);;
    match err with
    | Some msg =>
      ITree.trigger (Printf ("Error starting parking chaincode: " ++ msg)%string)
    | None => Ret tt
    end
  end.

Variant MainEvent : Type := MEv (T : Type) (e : mainE T) (a : T).
Arguments MEv {T}.

Section ExecMain.
Context {W : Type} (h : forall T, mainE T -> W -> W * T).

(** [exec], for the calls of [main]. *)
Fixpoint execMain {R} (fuel : nat) (t : itree mainE R) (w : W)
  : option (W * list MainEvent * R) :=
  match fuel with
  | O => None
  | S n =>
    match observe t with
    | RetF r => Some (w, [], r)
    | TauF t' => execMain n t' w
    | VisF e k =>
      let (w', a) := h e w in
      match execMain n (k a) w' with
      | Some (w'', tr, r) => Some (w'', MEv e a :: tr, r)
      | None => None
      end
    end
  end.
End ExecMain.

Definition isStart (ev : MainEvent) : bool :=
  match ev with
  | MEv (Start _) _ => true
  | _ => false
  end.

Definition printed (ev : MainEvent) : option string :=
  match ev with
  | MEv (Printf text) _ => Some text
  | _ => None
  end.

(** The lines a run printed, in order. *)
Fixpoint output (tr : list MainEvent) : list string :=
  match tr with
  | [] => []
  | ev :: rest =>
    match printed ev with
    | Some text => text :: output rest
    | None => output rest
    end
  end.

(** * Proofs *)

(** ** The executor: fuel, sequencing and loops *)
Section ExecFacts.
Context {W : Type} (h : Handler W).

Lemma exec_S {R} (n : nat) (t : itree envE R) (w : W) :
  exec h (S n) t w =
  match observe t with
  | RetF r => Some (w, [], r)
  | TauF t' => exec h n t' w
  | VisF e k =>
    let (w', a) := h e w in
    match exec h n (k a) w' with
    | Some (w'', tr, r) => Some (w'', Ev e a :: tr, r)
    | None => None
    end
  end.
Proof. reflexivity. Qed.

Lemma exec_mono {R} (n m : nat) (t : itree envE R) (w : W) (res : W * Trace * R) :
  exec h n t w = Some res -> n <= m -> exec h m t w = Some res.
Proof.
  revert m t w res. induction n as [|n IH]; intros m t w res Hex Hle; [discriminate|].
  destruct m as [|m]; [lia|]. simpl in *.
  destruct (observe t) as [r|t'|X e k]; auto.
  - apply IH; [assumption|lia].
  - destruct (h e w) as [w' a].
    destruct (exec h n (k a) w') as [[[w'' tr] r]|] eqn:E; [|discriminate].
    rewrite (IH m _ _ _ E) by lia. assumption.
Qed.

Lemma exec_bind_inv {A R} (n : nat) (t : itree envE A) (k : A -> itree envE R)
      (w w' : W) (tr : Trace) (r : R) :
  exec h n (ITree.bind t k) w = Some (w', tr, r) ->
  exists w1 tr1 a tr2,
    exec h n t w = Some (w1, tr1, a) /\ exec h n (k a) w1 = Some (w', tr2, r)
    /\ tr = tr1 ++ tr2.
Proof.
  revert t w w' tr r. induction n as [|n IH]; intros t w w' tr r Hex; [discriminate|].
  simpl in Hex.
  destruct (observe t) as [a|t'|X e c] eqn:Ht.
  - exists w, [], a, tr. rewrite exec_S, Ht. repeat split. exact Hex.
  - simpl in Hex. apply IH in Hex as (w1 & tr1 & a & tr2 & H1 & H2 & ->).
    exists w1, tr1, a, tr2. rewrite exec_S, Ht. repeat split; [assumption|].
    apply exec_mono with (n := n); [assumption|lia].
  - simpl in Hex. destruct (h e w) as [w0 x] eqn:Hh.
    destruct (exec h n (ITree.bind (c x) k) w0) as [[[w'' tr0] r0]|] eqn:E; [|discriminate].
    injection Hex as -> <- ->.
    apply IH in E as (w1 & tr1 & a & tr2 & H1 & H2 & ->).
    exists w1, (Ev e x :: tr1), a, tr2. rewrite exec_S, Ht, Hh, H1. repeat split.
    apply exec_mono with (n := n); [assumption|lia].
Qed.

Lemma exec_bind {A R} (n1 n2 : nat) (t : itree envE A) (k : A -> itree envE R)
      (w w1 w' : W) (tr1 tr2 : Trace) (a : A) (r : R) :
  exec h n1 t w = Some (w1, tr1, a) ->
  exec h n2 (k a) w1 = Some (w', tr2, r) ->
  exec h (n1 + n2) (ITree.bind t k) w = Some (w', tr1 ++ tr2, r).
Proof.
  revert t w w1 tr1. induction n1 as [|n1 IH]; intros t w w1 tr1 H1 H2; [discriminate|].
  simpl in H1 |- *.
  destruct (observe t) as [a0|t'|X e c] eqn:Ht.
  - injection H1 as <- <- <-. simpl.
    apply exec_mono with (m := S (n1 + n2)) in H2; [|lia].
    exact H2.
  - simpl. eapply IH; eassumption.
  - simpl. destruct (h e w) as [w0 x].
    destruct (exec h n1 (c x) w0) as [[[w'' tr0] r0]|] eqn:E; [|discriminate].
    injection H1 as <- <- <-.
    rewrite (IH _ _ _ _ E H2). reflexivity.
Qed.

Lemma exec_bind_le {A R} (n n1 n2 : nat) (t : itree envE A) (k : A -> itree envE R)
      (w w1 w' : W) (tr tr1 tr2 : Trace) (a : A) (r : R) :
  exec h n1 t w = Some (w1, tr1, a) ->
  exec h n2 (k a) w1 = Some (w', tr2, r) ->
  n1 + n2 <= n -> tr = tr1 ++ tr2 ->
  exec h n (ITree.bind t k) w = Some (w', tr, r).
Proof.
  intros H1 H2 Hle ->. apply exec_mono with (n := n1 + n2); [|assumption].
  eapply exec_bind; eassumption.
Qed.

Lemma exec_trigger {T} (n : nat) (e : envE T) (w : W) :
  exec h (S (S n)) (ITree.trigger e) w = (let (w', a) := h e w in Some (w', [Ev e a], a)).
Proof. simpl. destruct (h e w). reflexivity. Qed.

Lemma exec_bind_ret {A R} (n : nat) (a : A) (k : A -> itree envE R) (w : W) :
  exec h n (ITree.bind (Ret a) k) w = exec h n (k a) w.
Proof. destruct n; reflexivity. Qed.

Lemma exec_bind_trigger {T R} (n : nat) (e : envE T) (k : T -> itree envE R) (w : W) :
  exec h (S n) (ITree.bind (ITree.trigger e) k) w =
  (let (w', a) := h e w in
   match exec h n (k a) w' with
   | Some (w'', tr, r) => Some (w'', Ev e a :: tr, r)
   | None => None
   end).
Proof.
  rewrite exec_S. simpl. destruct (h e w) as [w' a].
  change (ITree.subst k (Ret a)) with (ITree.bind (Ret a) k).
  rewrite exec_bind_ret. reflexivity.
Qed.

Lemma exec_ret {R} (n : nat) (r : R) (w : W) : exec h (S n) (Ret r) w = Some (w, [], r).
Proof. reflexivity. Qed.

Lemma exec_iter_unfold {I R} (n : nat) (body : I -> itree envE (I + R)) (i : I) (w : W) :
  exec h n (ITree.iter body i) w = exec h n (ITree.bind (body i) (iter_next body)) w.
Proof. destruct n; reflexivity. Qed.

(** A loop invariant: if every round keeps [Inv] or, on leaving, gives [Post]... *)
Lemma exec_iter_inv {I R} (body : I -> itree envE (I + R))
      (Inv : I -> W -> Trace -> Prop) (Post : W -> Trace -> R -> Prop) :
  (forall n i w tr w1 tr1 x,
      Inv i w tr -> exec h n (body i) w = Some (w1, tr1, x) ->
      match x with
      | inl i' => Inv i' w1 (tr ++ tr1)
      | inr r => Post w1 (tr ++ tr1) r
      end) ->
  forall n i w tr w' tr' r,
    Inv i w tr -> exec h n (ITree.iter body i) w = Some (w', tr', r) ->
    Post w' (tr ++ tr') r.
Proof.
  intros Hbody n. induction n as [n IH] using lt_wf_ind.
  intros i w tr w' tr' r HI Hex.
  rewrite exec_iter_unfold in Hex.
  apply exec_bind_inv in Hex as (w1 & tr1 & x & tr2 & H1 & H2 & ->).
  pose proof (Hbody _ _ _ _ _ _ _ HI H1) as Hx.
  destruct x as [i'|r']; simpl in H2.
  - destruct n as [|n]; [discriminate|]. simpl in H2.
    rewrite app_assoc. eapply (IH n); [lia|exact Hx|exact H2].
  - destruct n as [|n]; [discriminate|]. simpl in H2. injection H2 as <- <- <-.
    rewrite app_nil_r. exact Hx.
Qed.
End ExecFacts.

(** ** What the two operations do on any host *)
Lemma Marshal_slot (slot : ParkingSlot) : json.Marshal slot = (encodeSlot slot, None).
Proof.
unfold json.Marshal, valueOf, ParkingSlot_GoType, encodeSlot. cbn [encode.encodeValue].
cbn [app]. repeat (rewrite <- app_assoc; cbn [app]). reflexivity.
Qed.

Section Programs.
Context {W : Type} (h : Handler W).

Lemma UpdateStatus_exec (n : nat) (w : W) (id : string) (occupied : bool) (location : string) :
  exec h (S (S (S n))) (UpdateStatus id occupied location) w =
  (let (w1, now) := h time_Now w in
   let (w2, err) := h (PutState id (encodeSlot (slotAt id occupied location now))) w1 in
   Some (w2, [Ev time_Now now; Ev (PutState id (encodeSlot (slotAt id occupied location now))) err],
         err)).
Proof.
  unfold UpdateStatus. rewrite exec_bind_trigger.
  destruct (h time_Now w) as [w1 now].
  fold (slotAt id occupied location now). rewrite Marshal_slot, exec_trigger.
  destruct (h (PutState id (encodeSlot (slotAt id occupied location now))) w1) as [w2 err].
  reflexivity.
Qed.

Lemma UpdateStatus_exec_inv (n : nat) (w w' : W) (tr : Trace) (res : error)
      (id : string) (occupied : bool) (location : string) :
  exec h n (UpdateStatus id occupied location) w = Some (w', tr, res) ->
  exists w1 now,
    h time_Now w = (w1, now)
    /\ h (PutState id (encodeSlot (slotAt id occupied location now))) w1 = (w', res)
    /\ tr = [Ev time_Now now; Ev (PutState id (encodeSlot (slotAt id occupied location now))) res].
Proof.
  intros Hex.
  apply exec_mono with (m := S (S (S n))) in Hex; [|lia].
  rewrite UpdateStatus_exec in Hex.
  destruct (h time_Now w) as [w1 now].
  destruct (h (PutState id (encodeSlot (slotAt id occupied location now))) w1) as [w2 err] eqn:Hput.
  injection Hex as <- <- <-. exists w1, now. rewrite Hput. auto.
Qed.

Lemma GetAllSlots_body_exec (n : nat) (w : W) (it : Iterator) (slots : list ParkingSlot) :
  exec h (S (S (S n))) (GetAllSlots_body it slots) w =
  (let (wa, more) := h (HasNext it) w in
   if more : bool then
     let (wb, ans) := h (Next it) wa in
     Some (wb, [Ev (HasNext it) true; Ev (Next it) ans],
           match fst ans with
           | None => inr Panicked
           | Some kv => inl (slots ++ [decodeEntry kv])
           end)
   else Some (wa, [Ev (HasNext it) false], inr (Returned (slots, None)))).
Proof.
  unfold GetAllSlots_body. rewrite exec_bind_trigger.
  destruct (h (HasNext it) w) as [wa [|]].
  - rewrite exec_bind_trigger. destruct (h (Next it) wa) as [wb [[kv|] e]]; cbn [fst].
    + unfold decodeEntry. destruct (json.Unmarshal (Value kv) zeroSlot) as [slot e']. reflexivity.
    + reflexivity.
  - reflexivity.
Qed.

Lemma GetAllSlots_body_inv (n : nat) (w w1 : W) (it : Iterator) (slots : list ParkingSlot)
      (tr1 : Trace) (x : list ParkingSlot + Outcome (list ParkingSlot * error)) :
  exec h n (GetAllSlots_body it slots) w = Some (w1, tr1, x) ->
  forallb (isScanStep it) tr1 = true
  /\ match x with
     | inl slots' => length slots' = S (length slots)
     | inr (Returned (_, err)) => err = None
     | inr Panicked => True
     end.
Proof.
  intros Hex. apply exec_mono with (m := S (S (S n))) in Hex; [|lia].
  rewrite GetAllSlots_body_exec in Hex.
  destruct (h (HasNext it) w) as [wa [|]].
  - destruct (h (Next it) wa) as [wb [[kv|] e]]; cbn [fst] in Hex;
      injection Hex as <- <- <-; cbn; rewrite Nat.eqb_refl; split; auto.
    rewrite length_app. cbn. lia.
  - injection Hex as <- <- <-; cbn; rewrite Nat.eqb_refl; split; auto.
Qed.

Lemma GetAllSlots_loop_inv (n : nat) (w w' : W) (it : Iterator) (slots : list ParkingSlot)
      (tr : Trace) (out : Outcome (list ParkingSlot * error)) :
  exec h n (ITree.iter (GetAllSlots_body it) slots) w = Some (w', tr, out) ->
  forallb (isScanStep it) tr = true
  /\ match out with
     | Returned (_, err) => err = None
     | Panicked => True
     end.
Proof.
  intros Hex.
  apply (exec_iter_inv h (GetAllSlots_body it)
           (fun _ _ tr => forallb (isScanStep it) tr = true)
           (fun _ tr out => forallb (isScanStep it) tr = true
                            /\ match out with
                               | Returned (_, err) => err = None
                               | Panicked => True
                               end))
    with (tr := []) in Hex; [exact Hex| |reflexivity].
  clear. intros n i w tr w1 tr1 x Htr Hex.
  apply GetAllSlots_body_inv in Hex as [Hsteps Hx].
  destruct x as [slots'|[[sl err]|]]; rewrite forallb_app, Htr, Hsteps; auto.
Qed.

Lemma GetAllSlots_exec_inv (n : nat) (w w' : W) (tr : Trace)
      (out : Outcome (list ParkingSlot * error)) :
  exec h n GetAllSlots w = Some (w', tr, out) ->
  exists w1 oit e,
    h (GetStateByRange "" "") w = (w1, (oit, e))
    /\ match oit with
       | None => w' = w1 /\ tr = [Ev (GetStateByRange "" "") (None, e)] /\ out = Panicked
       | Some it =>
         exists w2 body cerr,
           exec h n (ITree.iter (GetAllSlots_body it) []) w1 = Some (w2, body, out)
           /\ h (Close it) w2 = (w', cerr)
           /\ tr = Ev (GetStateByRange "" "") (Some it, e) :: body ++ [Ev (Close it) cerr]
       end.
Proof.
  intros Hex. destruct n as [|n]; [discriminate|].
  unfold GetAllSlots in Hex. rewrite exec_bind_trigger in Hex.
  destruct (h (GetStateByRange "" "") w) as [w1 [oit e]].
  exists w1, oit, e. split; [reflexivity|].
  destruct oit as [it|].
  - destruct (exec h n _ w1) as [[[w'' tr0] r]|] eqn:E; [|discriminate].
    injection Hex as <- <- <-.
    apply exec_bind_inv in E as (w2 & body & x & tr2 & Hloop & Hrest & ->).
    apply exec_mono with (m := S (S (S n))) in Hrest; [|lia].
    rewrite exec_bind_trigger in Hrest.
    destruct (h (Close it) w2) as [w3 cerr] eqn:Hclose.
    rewrite exec_ret in Hrest. injection Hrest as <- <- <-.
    exists w2, body, cerr. repeat split; [|exact Hclose].
    apply exec_mono with (n := n); [assumption|lia].
  - destruct n as [|n]; [discriminate|]. rewrite exec_ret in Hex.
    injection Hex as <- <- <-. auto.
Qed.
End Programs.

(** ** The ledger *)
Module ledgerFacts.
Import ledger.

Lemma keyLt_trans (a b c : string) : keyLt a b -> keyLt b c -> keyLt a c.
Proof.
  unfold keyLt. intros H1 H2.
  apply String_as_OT.cmp_lt. apply String_as_OT.cmp_lt in H1, H2.
  eapply String_as_OT.lt_trans; eassumption.
Qed.

Lemma keyLt_neq (a b : string) : keyLt a b -> String.eqb b a = false.
Proof.
  unfold keyLt. intros H. apply String.eqb_neq. intros ->.
  assert (E : String.compare a a = Eq) by (apply String_as_OT.cmp_eq; reflexivity).
  congruence.
Qed.

Lemma keyLt_neq' (a b : string) : keyLt a b -> String.eqb a b = false.
Proof. intros H. rewrite String.eqb_sym. apply keyLt_neq. assumption. Qed.

Lemma compare_Gt_keyLt (a b : string) : String.compare a b = Gt -> keyLt b a.
Proof.
  unfold keyLt. intros H. rewrite String.compare_antisym, H. reflexivity.
Qed.

Lemma get_put_same (key : string) (value : bytes) (st : list KV) :
  get key (put key value st) = Some value.
Proof.
  induction st as [|kv rest IH]; cbn.
  - rewrite String.eqb_refl. reflexivity.
  - destruct (String.compare key (Key kv)) eqn:E; cbn.
    + rewrite String.eqb_refl. reflexivity.
    + rewrite String.eqb_refl. reflexivity.
    + rewrite (keyLt_neq' (compare_Gt_keyLt _ _ E)). exact IH.
Qed.

Lemma get_put_other (key key' : string) (value : bytes) (st : list KV) :
  key' <> key -> get key' (put key value st) = get key' st.
Proof.
  intros Hne. assert (Hb : String.eqb key key' = false) by (apply String.eqb_neq; congruence).
  induction st as [|kv rest IH]; cbn.
  - rewrite Hb. reflexivity.
  - destruct (String.compare key (Key kv)) eqn:E; cbn.
    + apply String.compare_eq_iff in E. rewrite <- E, Hb. reflexivity.
    + rewrite Hb. reflexivity.
    + rewrite IH. reflexivity.
Qed.

Lemma In_put (key : string) (value : bytes) (st : list KV) :
  In (mkKV key value) (put key value st).
Proof.
  induction st as [|kv rest IH]; cbn; [auto|].
  destruct (String.compare key (Key kv)); cbn; auto.
Qed.

Lemma Forall_put (P : KV -> Prop) (key : string) (value : bytes) (st : list KV) :
  P (mkKV key value) -> Forall P st -> Forall P (put key value st).
Proof.
  intros Hp Hall. induction Hall as [|kv rest Hkv Hrest IH]; cbn; [auto|].
  destruct (String.compare key (Key kv)); auto.
Qed.

Lemma sorted_put (key : string) (value : bytes) (st : list KV) :
  sorted st -> sorted (put key value st).
Proof.
  induction 1 as [|kv rest Hall Hs IH]; cbn.
  - constructor; constructor.
  - destruct (String.compare key (Key kv)) eqn:E.
    + apply String.compare_eq_iff in E. constructor; [|assumption].
      cbn. rewrite E. assumption.
    + constructor; [|constructor; assumption].
      constructor; [exact E|].
      eapply Forall_impl; [|exact Hall]. cbn. intros kv' H'. eapply keyLt_trans; eassumption.
    + constructor; [|assumption].
      apply Forall_put; [|assumption]. cbn. apply compare_Gt_keyLt. assumption.
Qed.

Lemma keyCount_above (key : string) (st : list KV) :
  Forall (fun kv => keyLt key (Key kv)) st -> keyCount key st = 0.
Proof.
  unfold keyCount. induction 1 as [|kv rest Hkv Hrest IH]; cbn; [reflexivity|].
  rewrite (keyLt_neq Hkv). exact IH.
Qed.

Lemma keyCount_put (key : string) (value : bytes) (st : list KV) :
  sorted st -> keyCount key (put key value st) = 1.
Proof.
  induction 1 as [|kv rest Hall Hs IH]; cbn.
  - unfold keyCount. cbn. rewrite String.eqb_refl. reflexivity.
  - destruct (String.compare key (Key kv)) eqn:E.
    + apply String.compare_eq_iff in E. unfold keyCount. cbn. rewrite String.eqb_refl. cbn.
      f_equal. apply keyCount_above. rewrite E. assumption.
    + unfold keyCount. cbn [filter Key]. rewrite String.eqb_refl. cbn [length]. f_equal.
      apply (keyCount_above (st := kv :: rest)). constructor; [exact E|].
      eapply Forall_impl; [|exact Hall]. cbn. intros kv' H'. eapply keyLt_trans; eassumption.
    + unfold keyCount in *. cbn [filter].
      rewrite (keyLt_neq' (compare_Gt_keyLt _ _ E)). exact IH.
Qed.

Lemma filter_inRange_all (st : list KV) : filter (inRange "" "") st = st.
Proof. induction st as [|kv rest IH]; cbn; [|rewrite IH]; reflexivity. Qed.

Lemma nth_setCursor (it : Iterator) (c d : Cursor) (cs : list Cursor) :
  it < length cs -> nth it (setCursor it c cs) d = c.
Proof.
  revert it. induction cs as [|c0 cs IH]; intros [|it] Hlt; cbn in *; try lia; auto.
  apply IH. lia.
Qed.

Lemma length_setCursor (it : Iterator) (c : Cursor) (cs : list Cursor) :
  length (setCursor it c cs) = length cs.
Proof.
  revert it. induction cs as [|c0 cs IH]; intros [|it]; cbn; auto.
Qed.

End ledgerFacts.

(** ** The scan on the ledger *)
Section LedgerRuns.
Import ledger ledgerFacts.

Lemma ledger_loop (it : Iterator) (l : list KV) :
  forall (w : World) (slots : list ParkingSlot),
    it < length (cursors w) -> cursor w it = mkCursor l false -> nextFault w = None ->
    exists n w' tr,
      exec handle n (ITree.iter (GetAllSlots_body it) slots) w
      = Some (w', tr, Returned (slots ++ map decodeEntry l, None))
      /\ state w' = state w /\ putFault w' = putFault w.
Proof.
  induction l as [|kv l IH]; intros w slots Hlt Hcur Hnf.
  - exists 4, w, [Ev (HasNext it) false].
    split; [|auto]. rewrite exec_iter_unfold. cbn [map]. rewrite app_nil_r.
    eapply exec_bind_le with (n1 := 3) (n2 := 1) (tr2 := []).
    + rewrite GetAllSlots_body_exec. cbn [handle]. rewrite Hcur. reflexivity.
    + reflexivity.
    + lia.
    + reflexivity.
  - set (w1 := withCursors w (setCursor it (mkCursor l false) (cursors w))).
    destruct (IH w1 (slots ++ [decodeEntry kv])) as (n & w' & tr & Hex & Hst & Hpf).
    + cbn. rewrite length_setCursor. assumption.
    + unfold cursor. cbn. apply nth_setCursor. assumption.
    + exact Hnf.
    + exists (3 + S n), w', ([Ev (HasNext it) true; Ev (Next it) (Some kv, None)] ++ tr).
      split; [|auto]. rewrite exec_iter_unfold.
      eapply exec_bind_le with (n1 := 3) (n2 := S n) (w1 := w1).
      * rewrite GetAllSlots_body_exec. cbn [handle]. rewrite Hcur, Hnf. cbn. reflexivity.
      * cbn [iter_next]. rewrite exec_S. cbn [observe _observe].
        cbn [map]. replace (slots ++ decodeEntry kv :: map decodeEntry l)
          with ((slots ++ [decodeEntry kv]) ++ map decodeEntry l)
          by (rewrite <- app_assoc; reflexivity).
        exact Hex.
      * lia.
      * reflexivity.
Qed.

(** On a ledger that fails no call of the scan, [GetAllSlots] returns the
    decoded entries of the whole world state, in key order. *)
Lemma ledger_GetAllSlots (w : World) :
  rangeFault w = None -> nextFault w = None ->
  exists n w' tr,
    exec handle n GetAllSlots w = Some (w', tr, Returned (map decodeEntry (state w), None))
    /\ state w' = state w /\ putFault w' = putFault w.
Proof.
  intros Hrf Hnf.
  set (it := length (cursors w)).
  set (w1 := withCursors w (cursors w ++ [mkCursor (state w) false])).
  destruct (@ledger_loop it (state w) w1 []) as (n & w2 & tr & Hex & Hst & Hpf).
  - cbn. rewrite length_app. cbn. unfold it. lia.
  - unfold cursor, it. cbn. rewrite nth_middle. reflexivity.
  - exact Hnf.
  - set (r := Returned (map decodeEntry (state w), @None string)) in *.
    eexists (S (n + 3)), _, _.
    unfold GetAllSlots. rewrite exec_bind_trigger. cbn [handle]. rewrite Hrf.
    rewrite filter_inRange_all. fold it. fold w1.
    erewrite exec_bind_le with (n1 := n) (n2 := 3) (tr2 := [Ev (Close it) None]);
      [ | exact Hex | rewrite exec_bind_trigger; cbn; reflexivity | lia | reflexivity].
    split; [reflexivity|]. cbn. auto.
Qed.
End LedgerRuns.

(** ** UTF-8: a well-formed string is left alone *)
Module utf8Facts.
Local Open Scope N_scope.

(** A sequence of two bytes or more is decoded from its own bytes alone. *)
Lemma DecodeRune_prefix (c : ascii) (s : bytes) (r : N) (size : nat) (tail : bytes) :
  (N_of_ascii c <? utf8.RuneSelf) = false ->
  utf8.DecodeRune (c :: s) = (r, size) ->
  ((r =? utf8.RuneError) && (size =? 1)%nat) = false ->
  (2 <= size <= length (c :: s))%nat
  /\ utf8.DecodeRune (firstn size (c :: s) ++ tail) = (r, size)
  /\ skipn size (firstn size (c :: s) ++ tail) = tail.
Proof.
  intros Hc Hd Hne. unfold utf8.DecodeRune in Hd. rewrite Hc in Hd.
  assert (Hbad : (utf8.RuneError, 1%nat) <> (r, size)).
  { intros E. injection E as <- <-. discriminate Hne. }
  destruct (utf8.first (N_of_ascii c)) as [[[sz lo] hi]|] eqn:Hf; [|contradiction].
  destruct s as [|c1 s]; [contradiction|].
  destruct ((N_of_ascii c1 <? lo) || (hi <? N_of_ascii c1)) eqn:H1; [contradiction|].
  destruct (sz <=? 2)%nat eqn:H2.
  { injection Hd as <- <-. cbn [firstn app skipn length]. unfold utf8.DecodeRune.
    rewrite Hc, Hf, H1, H2. repeat split; lia. }
  destruct s as [|c2 s]; [contradiction|].
  destruct (negb (utf8.cont (N_of_ascii c2))) eqn:H3; [contradiction|].
  destruct (sz <=? 3)%nat eqn:H4.
  { injection Hd as <- <-. cbn [firstn app skipn length]. unfold utf8.DecodeRune.
    rewrite Hc, Hf, H1, H2, H3, H4. repeat split; lia. }
  destruct s as [|c3 s]; [contradiction|].
  destruct (negb (utf8.cont (N_of_ascii c3))) eqn:H5; [contradiction|].
  injection Hd as <- <-. cbn [firstn app skipn length]. unfold utf8.DecodeRune.
  rewrite Hc, Hf, H1, H2, H3, H4, H5. repeat split; lia.
Qed.


Ltac arith := zify; Z.to_euclidean_division_equations; lia.

Lemma lor_mul_pow2 (a y n : N) : y < 2 ^ n -> N.lor (a * 2 ^ n) y = a * 2 ^ n + y.
Proof.
  intros Hy.
  assert (Hd : N.land (a * 2 ^ n) y = 0).
  { apply N.bits_inj. intros i. rewrite N.land_spec, N.bits_0.
    destruct (N.ltb_spec i n) as [Hi|Hi].
    - rewrite N.mul_pow2_bits_low by assumption. reflexivity.
    - replace y with (y mod 2 ^ n) by (apply N.mod_small; assumption).
      rewrite N.mod_pow2_bits_high by assumption. apply andb_false_r. }
  rewrite N.add_nocarry_lxor by assumption. symmetry. apply N.lxor_lor. assumption.
Qed.

Lemma lor64 (a y : N) : y < 64 -> N.lor (a * 64) y = a * 64 + y.
Proof. apply (@lor_mul_pow2 a y 6). Qed.

Lemma lor16 (a y : N) : y < 16 -> N.lor (a * 16) y = a * 16 + y.
Proof. apply (@lor_mul_pow2 a y 4). Qed.

Lemma land_3F (a : N) : N.land a 0x3F = a mod 64.
Proof. apply (N.land_ones a 6). Qed.
Lemma land_1F (a : N) : N.land a 0x1F = a mod 32.
Proof. apply (N.land_ones a 5). Qed.
Lemma land_0F (a : N) : N.land a 0x0F = a mod 16.
Proof. apply (N.land_ones a 4). Qed.
Lemma land_07 (a : N) : N.land a 0x07 = a mod 8.
Proof. apply (N.land_ones a 3). Qed.
Lemma land_FF (a : N) : N.land a 0xFF = a mod 256.
Proof. apply (N.land_ones a 8). Qed.
Lemma shiftl_6 (a : N) : N.shiftl a 6 = a * 64.
Proof. apply (N.shiftl_mul_pow2 a 6). Qed.
Lemma shiftl_12 (a : N) : N.shiftl a 12 = a * 64 * 64.
Proof. rewrite (N.shiftl_mul_pow2 a 12). change (2 ^ 12) with (64 * 64). apply N.mul_assoc. Qed.
Lemma shiftl_18 (a : N) : N.shiftl a 18 = a * 64 * 64 * 64.
Proof.
  rewrite (N.shiftl_mul_pow2 a 18). change (2 ^ 18) with (64 * 64 * 64).
  rewrite !N.mul_assoc. reflexivity.
Qed.
Lemma shiftr_6 (a : N) : N.shiftr a 6 = a / 64.
Proof. apply (N.shiftr_div_pow2 a 6). Qed.
Lemma shiftr_12 (a : N) : N.shiftr a 12 = a / 4096.
Proof. apply (N.shiftr_div_pow2 a 12). Qed.
Lemma shiftr_18 (a : N) : N.shiftr a 18 = a / 262144.
Proof. apply (N.shiftr_div_pow2 a 18). Qed.

Lemma lor_scale (x y : N) : N.lor (x * 64) (y * 64) = N.lor x y * 64.
Proof. rewrite <- !shiftl_6. symmetry. apply N.shiftl_lor. Qed.

(** The runes of the three multi-byte forms, as sums. *)
Lemma rune2_sum (p0 b1 : N) :
  N.lor (N.shiftl (N.land p0 0x1F) 6) (N.land b1 0x3F) = (p0 mod 32) * 64 + b1 mod 64.
Proof. rewrite shiftl_6, land_1F, land_3F. apply lor64. arith. Qed.

Lemma rune3_sum (p0 b1 b2 : N) :
  N.lor (N.lor (N.shiftl (N.land p0 0x0F) 12) (N.shiftl (N.land b1 0x3F) 6)) (N.land b2 0x3F)
  = ((p0 mod 16) * 64 + b1 mod 64) * 64 + b2 mod 64.
Proof.
  rewrite shiftl_12, shiftl_6, land_0F, !land_3F.
  rewrite lor_scale, (@lor64 (p0 mod 16)) by arith.
  apply lor64. arith.
Qed.

Lemma rune4_sum (p0 b1 b2 b3 : N) :
  N.lor (N.lor (N.lor (N.shiftl (N.land p0 0x07) 18) (N.shiftl (N.land b1 0x3F) 12))
               (N.shiftl (N.land b2 0x3F) 6))
        (N.land b3 0x3F)
  = (((p0 mod 8) * 64 + b1 mod 64) * 64 + b2 mod 64) * 64 + b3 mod 64.
Proof.
  rewrite shiftl_18, shiftl_12, shiftl_6, land_07, !land_3F.
  rewrite !lor_scale, (@lor64 (p0 mod 8)) by arith.
  rewrite (@lor64 (p0 mod 8 * 64 + b1 mod 64)) by arith.
  apply lor64. arith.
Qed.

Lemma lorC0 (x : N) : x < 64 -> N.lor 0xC0 x = 192 + x.
Proof. apply (@lor64 3 x). Qed.
Lemma lor80 (x : N) : x < 64 -> N.lor 0x80 x = 128 + x.
Proof. apply (@lor64 2 x). Qed.
Lemma lorE0 (x : N) : x < 16 -> N.lor 0xE0 x = 224 + x.
Proof. apply (@lor16 14 x). Qed.
Lemma lorF0 (x : N) : x < 16 -> N.lor 0xF0 x = 240 + x.
Proof. apply (@lor16 15 x). Qed.

Lemma byte_eq (n : N) (c : ascii) : n mod 256 = N_of_ascii c -> utf8.byte n = c.
Proof. intros H. unfold utf8.byte. rewrite land_FF, H. apply ascii_N_embedding. Qed.

Lemma first_inv (p0 : N) (sz : nat) (lo hi : N) :
  utf8.first p0 = Some (sz, lo, hi) ->
  128 <= lo /\ hi <= 191
  /\ ((sz = 2%nat /\ 194 <= p0 <= 223)
      \/ (sz = 3%nat /\ 224 <= p0 <= 239 /\ (p0 = 224 -> lo = 160) /\ (p0 = 237 -> hi = 159))
      \/ (sz = 4%nat /\ 240 <= p0 <= 244 /\ (p0 = 240 -> lo = 144) /\ (p0 = 244 -> hi = 143))).
Proof.
  unfold utf8.first. intros H.
  repeat match type of H with
         | context [?a <? ?b] => destruct (N.ltb_spec a b)
         | context [?a <=? ?b] => destruct (N.leb_spec a b)
         | context [?a =? ?b] => destruct (N.eqb_spec a b)
         end; try discriminate H; injection H as <- <- <-; lia.
Qed.

Ltac solve_byte :=
  apply byte_eq;
  rewrite ?shiftr_6, ?shiftr_12, ?shiftr_18, ?land_3F;
  first [rewrite lorC0 by arith | rewrite lor80 by arith
        | rewrite lorE0 by arith | rewrite lorF0 by arith];
  arith.

(** A well-formed sequence is the encoding of the rune it decodes to. *)
Lemma EncodeRune_DecodeRune (c : ascii) (s : bytes) (r : N) (size : nat) :
  (N_of_ascii c <? utf8.RuneSelf) = false ->
  utf8.DecodeRune (c :: s) = (r, size) ->
  ((r =? utf8.RuneError) && (size =? 1)%nat) = false ->
  utf8.EncodeRune r = firstn size (c :: s).
Proof.
  intros Hc Hd Hne. unfold utf8.DecodeRune in Hd. rewrite Hc in Hd.
  assert (Hbad : (utf8.RuneError, 1%nat) <> (r, size)).
  { intros E. injection E as <- <-. discriminate Hne. }
  destruct (utf8.first (N_of_ascii c)) as [[[sz lo] hi]|] eqn:Hf; [|contradiction].
  apply first_inv in Hf as (Hlo & Hhi & Hf).
  destruct s as [|c1 s]; [contradiction|].
  destruct ((N_of_ascii c1 <? lo) || (hi <? N_of_ascii c1)) eqn:H1; [contradiction|].
  apply orb_false_elim in H1 as [H1a H1b]. apply N.ltb_ge in H1a, H1b.
  destruct (sz <=? 2)%nat eqn:H2.
  { apply Nat.leb_le in H2. rewrite rune2_sum in Hd. injection Hd as <- <-.
    assert (Hp : 194 <= N_of_ascii c <= 223) by lia.
    cbn [firstn]. unfold utf8.EncodeRune.
    replace (_ <=? 0x7F) with false by (symmetry; apply N.leb_gt; arith).
    replace (_ <=? 0x7FF) with true by (symmetry; apply N.leb_le; arith).
    f_equal; [solve_byte|]. f_equal. solve_byte. }
  apply Nat.leb_gt in H2.
  destruct s as [|c2 s]; [contradiction|].
  destruct (utf8.cont (N_of_ascii c2)) eqn:H3; [|contradiction].
  apply andb_prop in H3 as [H3a H3b]. apply N.leb_le in H3a, H3b. cbn [negb] in Hd.
  destruct (sz <=? 3)%nat eqn:H4.
  { apply Nat.leb_le in H4. rewrite rune3_sum in Hd. injection Hd as <- <-.
    assert (Hp : 224 <= N_of_ascii c <= 239
                 /\ (N_of_ascii c = 224 -> lo = 160) /\ (N_of_ascii c = 237 -> hi = 159)) by lia.
    destruct Hp as (Hp & Hp1 & Hp2).
    assert (Hc1 : (N_of_ascii c = 224 -> 160 <= N_of_ascii c1)
                  /\ (N_of_ascii c = 237 -> N_of_ascii c1 <= 159)
                  /\ 128 <= N_of_ascii c1 <= 191) by lia.
    clear Hf Hp1 Hp2 H1a H1b Hlo Hhi Hbad Hne.
    cbn [firstn]. unfold utf8.EncodeRune, utf8.MaxRune, utf8.RuneError.
    replace (_ <=? 0x7F) with false by (symmetry; apply N.leb_gt; arith).
    replace (_ <=? 0x7FF) with false by (symmetry; apply N.leb_gt; arith).
    replace (0x10FFFF <? _) with false by (symmetry; apply N.ltb_ge; arith).
    replace ((0xD800 <=? _) && (_ <=? 0xDFFF)) with false.
    2:{ symmetry. apply andb_false_iff.
        destruct (N.eq_dec (N_of_ascii c) 237) as [E|E].
        - left. apply N.leb_gt. arith.
        - destruct (N.lt_ge_cases (N_of_ascii c) 237).
          + left. apply N.leb_gt. arith.
          + right. apply N.leb_gt. arith. }
    cbn [orb]. replace (_ <=? 0xFFFF) with true by (symmetry; apply N.leb_le; arith).
    f_equal; [solve_byte|]. f_equal; [solve_byte|]. f_equal. solve_byte. }
  apply Nat.leb_gt in H4.
  destruct s as [|c3 s]; [contradiction|].
  destruct (utf8.cont (N_of_ascii c3)) eqn:H5; [|contradiction].
  apply andb_prop in H5 as [H5a H5b]. apply N.leb_le in H5a, H5b. cbn [negb] in Hd.
  rewrite rune4_sum in Hd. injection Hd as <- <-.
  assert (Hp : 240 <= N_of_ascii c <= 244
               /\ (N_of_ascii c = 240 -> lo = 144) /\ (N_of_ascii c = 244 -> hi = 143)) by lia.
  destruct Hp as (Hp & Hp1 & Hp2).
  assert (Hc1 : (N_of_ascii c = 240 -> 144 <= N_of_ascii c1)
                /\ (N_of_ascii c = 244 -> N_of_ascii c1 <= 143)
                /\ 128 <= N_of_ascii c1 <= 191) by lia.
  clear Hf Hp1 Hp2 H1a H1b Hlo Hhi Hbad Hne.
  cbn [firstn]. unfold utf8.EncodeRune, utf8.MaxRune, utf8.RuneError.
  replace (_ <=? 0x7F) with false by (symmetry; apply N.leb_gt; arith).
  replace (_ <=? 0x7FF) with false by (symmetry; apply N.leb_gt; arith).
  replace (0x10FFFF <? _) with false by (symmetry; apply N.ltb_ge; arith).
  replace (0xD800 <=? _) with true by (symmetry; apply N.leb_le; arith).
  replace (_ <=? 0xDFFF) with false by (symmetry; apply N.leb_gt; arith).
  cbn [orb andb]. replace (_ <=? 0xFFFF) with false by (symmetry; apply N.leb_gt; arith).
  f_equal; [solve_byte|]. f_equal; [solve_byte|]. f_equal; [solve_byte|]. f_equal. solve_byte.
Qed.

Lemma valid_coerce_loop (n : nat) :
  forall s : bytes, (length s <= n)%nat -> utf8.valid_loop n s = true -> utf8.coerce_loop n s = s.
Proof.
  induction n as [|n IH]; intros s Hlen Hv.
  - destruct s; [reflexivity|cbn in Hlen; lia].
  - destruct s as [|c s]; [reflexivity|].
    cbn [utf8.valid_loop utf8.coerce_loop] in *.
    destruct (N_of_ascii c <? utf8.RuneSelf) eqn:Hc.
    + rewrite IH; [reflexivity|cbn in Hlen; lia|assumption].
    + destruct (utf8.DecodeRune (c :: s)) as [r size] eqn:Hd.
      destruct ((r =? utf8.RuneError) && (size =? 1)%nat) eqn:Hbad; [discriminate|].
      rewrite (@EncodeRune_DecodeRune c s r size Hc Hd Hbad).
      destruct (@DecodeRune_prefix c s r size [] Hc Hd Hbad) as (Hsz & _).
      rewrite IH; [apply firstn_skipn| |assumption].
      rewrite length_skipn. cbn [length] in *. lia.
Qed.

Lemma Valid_coerce (s : bytes) : utf8.Valid s = true -> utf8.coerce s = s.
Proof. apply valid_coerce_loop. lia. Qed.

Lemma ValidString_coerceString (s : string) :
  utf8.ValidString s = true -> coerceString s = s.
Proof.
  unfold utf8.ValidString, coerceString, string_of_bytes, bytes_of_string. intros H.
  rewrite Valid_coerce by assumption. apply string_of_list_ascii_of_string.
Qed.
End utf8Facts.

(** ** JSON: decoding what the encoder wrote *)
Module jsonFacts.
Import scanner encode.
Local Open Scope N_scope.

Lemma unquote_safe (c : ascii) (m : nat) (tail : bytes) :
  (N_of_ascii c <? utf8.RuneSelf) = true -> htmlSafeSet (N_of_ascii c) = true ->
  unquote (S m) (c :: tail) = cons_fst c (unquote m tail).
Proof.
  destruct c as [[] [] [] [] [] [] [] []]; intros H1 H2;
    try discriminate H1; try discriminate H2; reflexivity.
Qed.

Lemma unquote_escapeByte (c : ascii) (m : nat) (tail : bytes) :
  (N_of_ascii c <? utf8.RuneSelf) = true -> htmlSafeSet (N_of_ascii c) = false ->
  unquote (S m) (escapeByte c ++ tail) = cons_fst c (unquote m tail).
Proof.
  destruct c as [[] [] [] [] [] [] [] []]; intros H1 H2;
    try discriminate H1; try discriminate H2; reflexivity.
Qed.

Lemma unquote_multibyte (c : ascii) (rest : bytes) (m : nat) :
  (N_of_ascii c <? utf8.RuneSelf) = false ->
  unquote (S m) (c :: rest) =
  (let (rr, size) := utf8.DecodeRune (c :: rest) in
   app_fst (utf8.EncodeRune rr) (unquote m (skipn size (c :: rest)))).
Proof.
  intros Hc. cbn [unquote]. cbv zeta. rewrite Hc.
  apply N.ltb_ge in Hc. unfold utf8.RuneSelf in Hc.
  replace (N_of_ascii c =? 34) with false by (symmetry; apply N.eqb_neq; lia).
  replace (N_of_ascii c =? 92) with false by (symmetry; apply N.eqb_neq; lia).
  replace (N_of_ascii c <? 32) with false by (symmetry; apply N.ltb_ge; lia).
  reflexivity.
Qed.

Ltac split_ifs :=
  repeat match goal with
         | |- context [if ?b then _ else _] => destruct b eqn:?
         end.

(** The closing quote ends the literal: what [unquote] then returns. *)
Lemma unquote_escape (n : nat) :
  forall (s : bytes) (m : nat) (tail : bytes),
    (length s <= n)%nat -> (length (escape_loop n s) < m)%nat ->
    unquote m (escape_loop n s ++ dquote :: tail) = Some (utf8.coerce_loop n s, tail).
Proof.
  induction n as [|n IH]; intros s m tail Hlen Hm.
  - destruct s; [|cbn in Hlen; lia]. destruct m; [cbn in Hm; lia|]. reflexivity.
  - destruct s as [|c s].
    + destruct m; [cbn in Hm; lia|]. reflexivity.
    + cbn [escape_loop utf8.coerce_loop] in *.
      destruct (N_of_ascii c <? utf8.RuneSelf) eqn:Hc.
      * destruct (htmlSafeSet (N_of_ascii c)) eqn:Hsafe.
        -- destruct m as [|m]; [cbn in Hm; lia|]. cbn [app].
           rewrite unquote_safe by assumption.
           rewrite IH; [reflexivity|cbn in Hlen; lia|cbn in Hm; lia].
        -- destruct m as [|m]; [lia|]. rewrite <- app_assoc.
           rewrite unquote_escapeByte by assumption.
           rewrite IH; [reflexivity|cbn in Hlen; lia|].
           rewrite length_app in Hm.
           assert (1 <= length (escapeByte c))%nat; [|lia].
           unfold escapeByte. split_ifs; cbn; lia.
      * destruct (utf8.DecodeRune (c :: s)) as [r size] eqn:Hd.
        destruct ((r =? utf8.RuneError) && (size =? 1)%nat) eqn:Hbad.
        -- apply andb_prop in Hbad as [Hr Hs]. apply N.eqb_eq in Hr. apply Nat.eqb_eq in Hs.
           subst r size. destruct m as [|m]; [lia|].
           rewrite <- app_assoc. cbn [skipn].
           change (unquote (S m) (replacementEscape ++ escape_loop n s ++ dquote :: tail))
             with (app_fst (utf8.EncodeRune utf8.RuneError)
                           (unquote m (escape_loop n s ++ dquote :: tail))).
           rewrite IH; [reflexivity|cbn in Hlen; lia|].
           rewrite length_app in Hm. cbn in Hm. lia.
        -- destruct (@utf8Facts.DecodeRune_prefix c s r size
                       (escape_loop n (skipn size (c :: s)) ++ dquote :: tail)
                       Hc Hd Hbad) as (Hsz & Hpre & Hskip).
           assert (Hlen' : (length (skipn size (c :: s)) <= n)%nat).
           { rewrite length_skipn. cbn [length] in *. lia. }
           destruct ((r =? 0x2028) || (r =? 0x2029)) eqn:Hsep.
           ++ destruct m as [|m]; [lia|].
              assert (Hm' : (length (escape_loop n (skipn size (c :: s))) < m)%nat).
              { rewrite length_app in Hm. cbn in Hm. lia. }
              rewrite <- app_assoc; cbn [app].
              apply orb_prop in Hsep as [Hr|Hr]; apply N.eqb_eq in Hr; subst r.
              ** change (unquote (S m) _)
                   with (app_fst (utf8.EncodeRune 0x2028)
                           (unquote m (escape_loop n (skipn size (c :: s)) ++ dquote :: tail))).
                 rewrite IH by assumption. reflexivity.
              ** change (unquote (S m) _)
                   with (app_fst (utf8.EncodeRune 0x2029)
                           (unquote m (escape_loop n (skipn size (c :: s)) ++ dquote :: tail))).
                 rewrite IH by assumption. reflexivity.
           ++ destruct m as [|m]; [lia|].
              rewrite <- app_assoc.
              assert (Hfirst : firstn size (c :: s) = c :: firstn (size - 1) s).
              { destruct size as [|size]; [lia|]. cbn [firstn]. do 2 f_equal. lia. }
              rewrite Hfirst in *. cbn [app] in *.
              rewrite unquote_multibyte by assumption.
              rewrite Hpre, Hskip, IH; [reflexivity|assumption|].
              cbn [length] in Hm. rewrite length_app in Hm. lia.
Qed.

Lemma encodeString_app (s : string) (tail : bytes) :
  encodeString s ++ tail
  = dquote :: escape_loop (length (bytes_of_string s)) (bytes_of_string s) ++ dquote :: tail.
Proof. unfold encodeString. cbn [app]. rewrite <- app_assoc. reflexivity. Qed.

Lemma unquote_encodeString (s : string) (tail : bytes) (m : nat) :
  (length (escape_loop (length (bytes_of_string s)) (bytes_of_string s) ++ dquote :: tail) <= m)%nat ->
  unquote m (escape_loop (length (bytes_of_string s)) (bytes_of_string s) ++ dquote :: tail)
  = Some (utf8.coerce (bytes_of_string s), tail).
Proof.
  intros Hm. apply unquote_escape; [lia|].
  rewrite length_app in Hm. cbn [length] in Hm. lia.
Qed.

Lemma skipSpace_other (c : ascii) (rest : bytes) :
  isSpace c = false -> skipSpace (c :: rest) = c :: rest.
Proof. intros H. cbn [skipSpace]. rewrite H. reflexivity. Qed.

Lemma value_quote (n : nat) (depth : N) (rest : bytes) :
  value (S n) depth (dquote :: rest)
  = match unquote (length rest) rest with
    | Some (str, r) => Some (JString (string_of_bytes str), r)
    | None => None
    end.
Proof. reflexivity. Qed.

Lemma value_string (n : nat) (depth : N) (s : string) (tail : bytes) :
  value (S n) depth (encodeString s ++ tail) = Some (JString (coerceString s), tail).
Proof.
  rewrite encodeString_app, value_quote, unquote_encodeString by lia. reflexivity.
Qed.

Lemma value_bool (n : nat) (depth : N) (b : bool) (tail : bytes) :
  value (S n) depth (bytes_of_string (if b then "true" else "false") ++ tail)
  = Some (JBool b, tail).
Proof. destruct b; reflexivity. Qed.

Lemma members_quote (n : nat) (depth : N) (r0 : bytes) :
  members (S n) depth (dquote :: r0)
  = match unquote (length r0) r0 with
    | None => None
    | Some (key, r1) =>
      match skipSpace r1 with
      | colon :: r2 =>
        if N_of_ascii colon =? 58 then
          match value n depth r2 with
          | None => None
          | Some (v, r3) =>
            match skipSpace r3 with
            | c :: r4 =>
              if N_of_ascii c =? 44 then cons_fst (string_of_bytes key, v) (members n depth r4)
              else if N_of_ascii c =? 125 then Some ([(string_of_bytes key, v)], r4)
              else None
            | [] => None
            end
          end
        else None
      | [] => None
      end
    end.
Proof. reflexivity. Qed.

(** One member written by the encoder, up to the comma or brace after it. *)
Lemma members_field (n : nat) (depth : N) (key : string) (venc : bytes) (v : JSON)
      (c : ascii) (rest : bytes) :
  value n depth (venc ++ c :: rest) = Some (v, c :: rest) -> isSpace c = false ->
  members (S n) depth (encodeString key ++ ":"%char :: venc ++ c :: rest)
  = if N_of_ascii c =? 44 then cons_fst (coerceString key, v) (members n depth rest)
    else if N_of_ascii c =? 125 then Some ([(coerceString key, v)], rest)
    else None.
Proof.
  intros Hv Hc.
  rewrite encodeString_app, members_quote, unquote_encodeString by lia.
  rewrite skipSpace_other by reflexivity.
  change (N_of_ascii ":" =? 58) with true. cbv iota.
  rewrite Hv, skipSpace_other by assumption. reflexivity.
Qed.

Lemma value_object (n : nat) (rest : bytes) :
  value (S n) 0 ("{"%char :: dquote :: rest)
  = match members n 1 (dquote :: rest) with
    | Some (ms, r) => Some (JObject ms, r)
    | None => None
    end.
Proof. reflexivity. Qed.

Lemma parse_encodeSlot (slot : ParkingSlot) :
  parse (encodeSlot slot)
  = Some (JObject [("id", JString (coerceString (ID slot)));
                   ("location", JString (coerceString (Location slot)));
                   ("occupied", JBool (Occupied slot));
                   ("timestamp", JString (coerceString (Timestamp slot)))]).
Proof.
  unfold parse.
  assert (Hfuel : exists k, (2 * length (encodeSlot slot) + 2 = 6 + k)%nat).
  { unfold encodeSlot, encodeString. cbn [length app]. eexists.
    rewrite Nat.mul_succ_r, Nat.mul_succ_r, <- !Nat.add_assoc.
    rewrite (Nat.add_comm _ (2 + (2 + 2))). reflexivity. }
  destruct Hfuel as [k ->]. cbn [Nat.add]. unfold encodeSlot.
  rewrite encodeString_app, value_object, <- encodeString_app.
  rewrite (@members_field _ _ "id" (encodeString (ID slot)) (JString (coerceString (ID slot))) ","%char);
    [|apply value_string|reflexivity].
  change (N_of_ascii "," =? 44) with true. cbv iota.
  rewrite (@members_field _ _ "location" (encodeString (Location slot))
             (JString (coerceString (Location slot))) ","%char);
    [|apply value_string|reflexivity].
  change (N_of_ascii "," =? 44) with true. cbv iota.
  rewrite (@members_field _ _ "occupied"
             (bytes_of_string (if Occupied slot then "true" else "false"))
             (JBool (Occupied slot)) ","%char);
    [|apply value_bool|reflexivity].
  change (N_of_ascii "," =? 44) with true. cbv iota.
  rewrite (@members_field _ _ "timestamp" (encodeString (Timestamp slot))
             (JString (coerceString (Timestamp slot))) "}"%char);
    [|apply value_string|reflexivity].
  reflexivity.
Qed.

Lemma Unmarshal_encodeSlot (slot : ParkingSlot) :
  json.Unmarshal (encodeSlot slot) zeroSlot = (coerceSlot slot, None).
Proof. unfold json.Unmarshal. rewrite parse_encodeSlot. reflexivity. Qed.
End jsonFacts.

(** ** Traces of the two operations *)

Lemma scan_steps_filters (it : Iterator) (body : Trace) :
  forallb (isScanStep it) body = true ->
  filter isWrite body = [] /\ filter isOpen body = [] /\ filter (isClose it) body = []
  /\ written body = [].
Proof.
  induction body as [|[T e a] body IH]; intros H; [cbn; auto|].
  cbn [forallb] in H. apply andb_prop in H as [He Hb].
  destruct (IH Hb) as (H1 & H2 & H3 & H4).
  destruct e; try discriminate He; cbn; auto.
Qed.

Lemma GetAllSlots_error_nil {W : Type} (h : Handler W) (n : nat) (w w' : W) (tr : Trace)
      (slots : list ParkingSlot) (err : error) :
  exec h n GetAllSlots w = Some (w', tr, Returned (slots, err)) -> err = None.
Proof.
  intros Hex. apply GetAllSlots_exec_inv in Hex as (w1 & oit & e & Hopen & Hrest).
  destruct oit as [it|].
  - destruct Hrest as (w2 & body & cerr & Hloop & _ & _).
    apply GetAllSlots_loop_inv in Hloop as [_ Hout]. exact Hout.
  - destruct Hrest as (_ & _ & Hout). discriminate Hout.
Qed.

Lemma ledger_UpdateStatus (n : nat) (w w' : World) (tr : Trace) (res : error)
      (id : string) (occupied : bool) (location : string) :
  exec ledger.handle n (UpdateStatus id occupied location) w = Some (w', tr, res) ->
  res = putFault w
  /\ w' = match putFault w with
          | Some _ => w
          | None =>
            ledger.withState w
              (ledger.put id (encodeSlot (slotAt id occupied location (wallClock w))) (state w))
          end.
Proof.
  intros Hex. apply UpdateStatus_exec_inv in Hex as (w1 & now & Hnow & Hput & _).
  cbn in Hnow. injection Hnow as <- <-. cbn in Hput.
  destruct (putFault w) as [err|]; injection Hput as <- <-; auto.
Qed.

(** ** Read-your-writes through the world state *)

(** A slot whose strings are valid UTF-8 comes back from JSON as it was. *)
Lemma decodeEntry_encodeSlot (key : string) (slot : ParkingSlot) :
  decodeEntry (mkKV key (encodeSlot slot)) = coerceSlot slot.
Proof. unfold decodeEntry. cbn [Value]. rewrite jsonFacts.Unmarshal_encodeSlot. reflexivity. Qed.

(** C1, as stated, fails.  Writing the location made of the single byte
    0xFF succeeds, and the scan that follows returns one record, whose
    location is U+FFFD, three other bytes: [json.Marshal] replaces a byte
    that is not valid UTF-8. *)
Lemma roundtrip_invalid_utf8 :
  exists w1 tr1 w2 tr2 slots,
    exec ledger.handle 3 (UpdateStatus "A" true badLocation) emptyWorld = Some (w1, tr1, None)
    /\ exec ledger.handle 10 GetAllSlots w1 = Some (w2, tr2, Returned (slots, None))
    /\ slots = [mkSlot "A" replacementChar true "2024-03-07T12:00:00Z"]
    /\ forall s, In s slots -> Location s <> badLocation.
Proof.
  do 5 eexists. split; [vm_compute; reflexivity|].
  split; [vm_compute; reflexivity|]. split; [reflexivity|].
  intros s [<-|[]]. discriminate.
Qed.

(** C1, amended: for every id and location that are valid UTF-8, after a
    successful [UpdateStatus id occupied location] the key [id] holds the
    record just written, and a following [GetAllSlots], on a host that
    serves the scan, returns a sequence that includes a record with that
    ID, occupied flag and location. *)
Theorem UpdateStatus_then_GetAllSlots
        (w w1 : World) (id : string) (occupied : bool) (location : string)
        (n1 : nat) (tr1 : Trace) :
  utf8.ValidString id = true -> utf8.ValidString location = true ->
  rangeFault w = None -> nextFault w = None ->
  exec ledger.handle n1 (UpdateStatus id occupied location) w = Some (w1, tr1, None) ->
  ledger.get id (state w1)
  = Some (fst (json.Marshal (slotAt id occupied location (wallClock w))))
  /\ exists n w2 tr2 slots,
      exec ledger.handle n GetAllSlots w1 = Some (w2, tr2, Returned (slots, None))
      /\ exists s, In s slots /\ ID s = id /\ Occupied s = occupied /\ Location s = location.
Proof.
  intros Hid Hloc Hrf Hnf Hex.
  apply ledger_UpdateStatus in Hex as [Hres Hw1].
  destruct (putFault w) as [err|]; [discriminate Hres|]. subst w1. cbn [state ledger.withState].
  split; [rewrite Marshal_slot; apply ledgerFacts.get_put_same|].
  set (slot := slotAt id occupied location (wallClock w)).
  set (w1 := ledger.withState w (ledger.put id (encodeSlot slot) (state w))).
  destruct (@ledger_GetAllSlots w1 Hrf Hnf) as (n & w2 & tr2 & Hrun & _ & _).
  exists n, w2, tr2, (map decodeEntry (state w1)). split; [exact Hrun|].
  exists (decodeEntry (mkKV id (encodeSlot slot))). split.
  - apply in_map. apply ledgerFacts.In_put.
  - rewrite decodeEntry_encodeSlot. unfold coerceSlot, slot, slotAt. cbn [ID Occupied Location].
    rewrite !utf8Facts.ValidString_coerceString by assumption. auto.
Qed.

Lemma UpdateStatus_then_GetAllSlots_witness :
  let w1 := ledger.withState emptyWorld
              [mkKV "S1" (encodeSlot (slotAt "S1" true "Garage-North" noon))] in
  ledger.get "S1" (state w1) = Some (fst (json.Marshal (slotAt "S1" true "Garage-North" noon)))
  /\ exists n w2 tr2 slots,
      exec ledger.handle n GetAllSlots w1 = Some (w2, tr2, Returned (slots, None))
      /\ exists s, In s slots /\ ID s = "S1" /\ Occupied s = true
                   /\ Location s = "Garage-North".
Proof.
  intros w1.
  apply (@UpdateStatus_then_GetAllSlots emptyWorld w1 "S1" true "Garage-North" 3
           [Ev time_Now noon;
            Ev (PutState "S1" (encodeSlot (slotAt "S1" true "Garage-North" noon))) None]);
    vm_compute; reflexivity.
Defined.

(** ** Failures of the scan *)

(** C2 does not hold of the code.  An entry that is not JSON comes back as
    a zero-valued slot under a nil error, where the claim asks for a
    DeserializationError and no partial result; a scan the host refuses to
    open ends in a panic, and so does a scan the host fails to advance
    (after the iterator is closed), where the claim asks for a
    StateReadError. *)
Theorem GetAllSlots_discards_failures :
  (exists w' tr,
      exec ledger.handle 10 GetAllSlots corruptWorld
      = Some (w', tr, Returned ([zeroSlot], None)))
  /\ exec ledger.handle 10 GetAllSlots closedWorld
     = Some (closedWorld, [Ev (GetStateByRange "" "") (None, Some "scan refused")], Panicked)
  /\ (exists w',
         exec ledger.handle 10 GetAllSlots stallingWorld
         = Some (w', [Ev (GetStateByRange "" "") (Some 0, None);
                      Ev (HasNext 0) true;
                      Ev (Next 0) (None, Some "scan broken");
                      Ev (Close 0) None], Panicked)).
Proof.
  split; [do 2 eexists; vm_compute; reflexivity|].
  split; [vm_compute; reflexivity|].
  eexists; vm_compute; reflexivity.
Qed.

(** ** Failures of the write *)

(** On every host [UpdateStatus] ends after its two calls. *)
Lemma UpdateStatus_returns {W : Type} (h : Handler W) (w : W)
      (id : string) (occupied : bool) (location : string) :
  exists w1 now w' res,
    h _ time_Now w = (w1, now)
    /\ h _ (PutState id (encodeSlot (slotAt id occupied location now))) w1 = (w', res)
    /\ forall n,
        exec h (3 + n) (UpdateStatus id occupied location) w
        = Some (w', [Ev time_Now now;
                     Ev (PutState id (encodeSlot (slotAt id occupied location now))) res], res).
Proof.
  destruct (h _ time_Now w) as [w1 now] eqn:Hnow.
  destruct (h _ (PutState id (encodeSlot (slotAt id occupied location now))) w1)
    as [w' res] eqn:Hput.
  exists w1, now, w', res. split; [reflexivity|]. split; [exact Hput|].
  intros n. cbn [Nat.add]. rewrite UpdateStatus_exec, Hnow, Hput. reflexivity.
Qed.

Lemma ledger_UpdateStatus_returns (w : World) (id : string) (occupied : bool)
      (location : string) (n : nat) :
  exec ledger.handle (3 + n) (UpdateStatus id occupied location) w
  = Some (match putFault w with
          | Some _ => w
          | None =>
            ledger.withState w
              (ledger.put id (encodeSlot (slotAt id occupied location (wallClock w))) (state w))
          end,
          [Ev time_Now (wallClock w);
           Ev (PutState id (encodeSlot (slotAt id occupied location (wallClock w)))) (putFault w)],
          putFault w).
Proof.
  cbn [Nat.add]. rewrite UpdateStatus_exec. cbn [ledger.handle].
  destruct (putFault w); reflexivity.
Qed.

(** C3: on every host [UpdateStatus] returns, and what it returns is what
    [PutState] answered, so a failed put is a failed call; encoding the
    record gave no error that could have been dropped.  On the ledger a
    call whose put is refused returns that failure and leaves the world as
    it was, and a call fails in no other way. *)
Theorem UpdateStatus_surfaces_failure :
  (forall (W : Type) (h : Handler W) (w : W)
          (id : string) (occupied : bool) (location : string),
      exists w1 now w' res,
        h _ time_Now w = (w1, now)
        /\ snd (json.Marshal (slotAt id occupied location now)) = None
        /\ h _ (PutState id (fst (json.Marshal (slotAt id occupied location now)))) w1
           = (w', res)
        /\ forall n,
            exec h (3 + n) (UpdateStatus id occupied location) w
            = Some (w',
                    [Ev time_Now now;
                     Ev (PutState id (fst (json.Marshal (slotAt id occupied location now)))) res],
                    res))
  /\ (forall (w : World) (err : string) (id : string) (occupied : bool) (location : string),
         putFault w = Some err ->
         exists tr,
           forall n,
             exec ledger.handle (3 + n) (UpdateStatus id occupied location) w
             = Some (w, tr, Some err))
  /\ (forall (n : nat) (w w' : World) (tr : Trace) (err : string)
             (id : string) (occupied : bool) (location : string),
         exec ledger.handle n (UpdateStatus id occupied location) w = Some (w', tr, Some err) ->
         putFault w = Some err /\ state w' = state w).
Proof.
  split; [|split].
  - intros W h w id occupied location.
    destruct (UpdateStatus_returns h w id occupied location)
      as (w1 & now & w' & res & Hnow & Hput & Hrun).
    exists w1, now, w', res. rewrite Marshal_slot. cbn [fst snd]. auto.
  - intros w err id occupied location Hpf. eexists. intros n.
    rewrite ledger_UpdateStatus_returns, Hpf. reflexivity.
  - intros n w w' tr err id occupied location Hex.
    apply ledger_UpdateStatus in Hex as [Hres Hw'].
    destruct (putFault w) as [e|]; [|discriminate Hres].
    subst w'. auto.
Qed.

Lemma UpdateStatus_surfaces_failure_witness :
  putFault rejectingWorld = Some "put rejected"
  /\ (exists tr,
         forall n,
           exec ledger.handle (3 + n) (UpdateStatus "A" false "Lot1") rejectingWorld
           = Some (rejectingWorld, tr, Some "put rejected"))
  /\ state rejectingWorld = state rejectingWorld.
Proof.
  assert (Hpf : putFault rejectingWorld = Some "put rejected") by reflexivity.
  assert (Hrun : exec ledger.handle 3 (UpdateStatus "A" false "Lot1") rejectingWorld
                 = Some (rejectingWorld,
                         [Ev time_Now noon;
                          Ev (PutState "A" (encodeSlot (slotAt "A" false "Lot1" noon)))
                             (Some "put rejected")],
                         Some "put rejected")) by (vm_compute; reflexivity).
  split; [exact Hpf|]. split.
  - exact (proj1 (proj2 UpdateStatus_surfaces_failure) rejectingWorld "put rejected"
             "A" false "Lot1" Hpf).
  - exact (proj2 (proj2 (proj2 UpdateStatus_surfaces_failure) _ _ _ _ _ _ _ _ Hrun)).
Defined.

(** ** Where the timestamp comes from *)




(** ** The other keys *)

(** C6: on every host a call of [UpdateStatus] returns after one write,
    under the key [id], and no read, and every run of it that ends has made
    that one write and no read; on the ledger the call returns and the
    value of every other key is what it was. *)
Theorem UpdateStatus_frame :
  (forall (W : Type) (h : Handler W) (w : W)
          (id : string) (occupied : bool) (location : string),
      exists w' tr res value,
        (forall n, exec h (3 + n) (UpdateStatus id occupied location) w = Some (w', tr, res))
        /\ filter isWrite tr = [Ev (PutState id value) res]
        /\ filter isRead tr = [])
  /\ (forall (W : Type) (h : Handler W) (n : nat) (w w' : W) (tr : Trace) (res : error)
             (id : string) (occupied : bool) (location : string),
         exec h n (UpdateStatus id occupied location) w = Some (w', tr, res) ->
         (exists value, filter isWrite tr = [Ev (PutState id value) res])
         /\ filter isRead tr = [])
  /\ (forall (w : World) (id : string) (occupied : bool) (location : string) (key : string),
         key <> id ->
         exists w' tr res,
           (forall n,
               exec ledger.handle (3 + n) (UpdateStatus id occupied location) w
               = Some (w', tr, res))
           /\ ledger.get key (state w') = ledger.get key (state w))
  /\ (forall (n : nat) (w w' : World) (tr : Trace) (res : error)
             (id : string) (occupied : bool) (location : string) (key : string),
         exec ledger.handle n (UpdateStatus id occupied location) w = Some (w', tr, res) ->
         key <> id ->
         ledger.get key (state w') = ledger.get key (state w)).
Proof.
  split; [|split; [|split]].
  - intros W h w id occupied location.
    destruct (UpdateStatus_returns h w id occupied location)
      as (w1 & now & w' & res & _ & _ & Hrun).
    eexists w', _, res, _. split; [exact Hrun|]. split; reflexivity.
  - intros W h n w w' tr res id occupied location Hex.
    apply UpdateStatus_exec_inv in Hex as (w1 & now & _ & _ & ->).
    split; [eexists|]; reflexivity.
  - intros w id occupied location key Hne.
    eexists _, _, _. split; [intros n; apply ledger_UpdateStatus_returns|].
    destruct (putFault w); [reflexivity|].
    cbn [state ledger.withState]. apply ledgerFacts.get_put_other. assumption.
  - intros n w w' tr res id occupied location key Hex Hne.
    apply ledger_UpdateStatus in Hex as [_ ->].
    destruct (putFault w); [reflexivity|].
    cbn [state ledger.withState]. apply ledgerFacts.get_put_other. assumption.
Qed.

Lemma UpdateStatus_frame_witness :
  let v := encodeSlot (slotAt "B" false "Lot2" noon) in
  let w' := ledger.withState storedWorld [mkKV "A" (encodeSlot lot1); mkKV "B" v] in
  "A" <> "B"
  /\ (exists w'' tr res,
         (forall n,
             exec ledger.handle (3 + n) (UpdateStatus "B" false "Lot2") storedWorld
             = Some (w'', tr, res))
         /\ ledger.get "A" (state w'') = ledger.get "A" (state storedWorld))
  /\ ((exists value,
          filter isWrite [Ev time_Now noon; Ev (PutState "B" v) None]
          = [Ev (PutState "B" value) None])
      /\ filter isRead [Ev time_Now noon; Ev (PutState "B" v) None] = [])
  /\ ledger.get "A" (state w') = ledger.get "A" (state storedWorld).
Proof.
  intros v w'.
  assert (Hne : "A" <> "B") by discriminate.
  assert (Hrun : exec ledger.handle 3 (UpdateStatus "B" false "Lot2") storedWorld
                 = Some (w', [Ev time_Now noon; Ev (PutState "B" v) None], None))
    by (vm_compute; reflexivity).
  split; [exact Hne|]. split; [|split].
  - exact (proj1 (proj2 (proj2 UpdateStatus_frame)) storedWorld "B" false "Lot2" "A" Hne).
  - exact (proj1 (proj2 UpdateStatus_frame) _ _ _ _ _ _ _ _ _ _ Hrun).
  - exact (proj2 (proj2 (proj2 UpdateStatus_frame)) _ _ _ _ _ _ _ _ "A" Hrun Hne).
Defined.
(** ** The scan *)

(** C7: on a ledger that serves the scan, [GetAllSlots] opens one scan,
    from the empty key to the empty key, and returns one slot an entry of
    the world state, in the order of the scan, under a nil error: the slot
    at each position is what [json.Unmarshal] makes of the value stored at
    that position, so a value that [json.Marshal] wrote for a record comes
    back as that record, its strings coerced to valid UTF-8.  It writes
    nothing and leaves the world state as it was.  On an empty world state
    the result is the empty sequence. *)
Theorem GetAllSlots_returns_every_entry (w : World) :
  rangeFault w = None -> nextFault w = None ->
  exists n w' tr slots,
    exec ledger.handle n GetAllSlots w = Some (w', tr, Returned (slots, None))
    /\ slots = map decodeEntry (state w)
    /\ length slots = length (state w)
    /\ (forall i kv,
           nth_error (state w) i = Some kv ->
           nth_error slots i = Some (fst (json.Unmarshal (Value kv) zeroSlot)))
    /\ (forall i kv slot,
           nth_error (state w) i = Some kv -> Value kv = fst (json.Marshal slot) ->
           nth_error slots i = Some (coerceSlot slot))
    /\ (state w = [] -> slots = [])
    /\ filter isOpen tr = [Ev (GetStateByRange "" "") (Some (length (cursors w)), None)]
    /\ filter isWrite tr = []
    /\ state w' = state w.
Proof.
  intros Hrf Hnf.
  destruct (@ledger_GetAllSlots w Hrf Hnf) as (n & w' & tr & Hrun & Hst & _).
  exists n, w', tr, (map decodeEntry (state w)).
  split; [exact Hrun|]. split; [reflexivity|]. split; [apply length_map|].
  split; [intros i kv Hi; rewrite nth_error_map, Hi; reflexivity|].
  split.
  { intros i kv slot Hi Hv. rewrite nth_error_map, Hi. cbn [option_map].
    unfold decodeEntry. rewrite Hv, Marshal_slot. cbn [fst].
    rewrite jsonFacts.Unmarshal_encodeSlot. reflexivity. }
  split; [intros ->; reflexivity|].
  apply GetAllSlots_exec_inv in Hrun as (w1 & oit & e & Hopen & Hrest).
  cbn in Hopen. rewrite Hrf in Hopen. injection Hopen as <- <- <-.
  destruct Hrest as (w2 & body & cerr & Hloop & _ & ->).
  apply GetAllSlots_loop_inv in Hloop as [Hsteps _].
  apply scan_steps_filters in Hsteps as (Hw & Ho & _ & _).
  cbn [filter isOpen isWrite]. rewrite !filter_app, Hw, Ho. cbn. auto.
Qed.

Lemma GetAllSlots_returns_every_entry_witness :
  let lot2 := slotAt "B" false "Lot2" afterNoon in
  let w := ledger.withState storedWorld
             [mkKV "A" (encodeSlot lot1); mkKV "B" (encodeSlot lot2);
              mkKV "C" (bytes_of_string "garbage")] in
  rangeFault w = None /\ nextFault w = None
  /\ exists n w' tr slots,
      exec ledger.handle n GetAllSlots w = Some (w', tr, Returned (slots, None))
      /\ slots = [lot1; lot2; zeroSlot]
      /\ length slots = length (state w)
      /\ (forall i kv,
             nth_error (state w) i = Some kv ->
             nth_error slots i = Some (fst (json.Unmarshal (Value kv) zeroSlot)))
      /\ (forall i kv slot,
             nth_error (state w) i = Some kv -> Value kv = fst (json.Marshal slot) ->
             nth_error slots i = Some (coerceSlot slot))
      /\ filter isOpen tr = [Ev (GetStateByRange "" "") (Some 0, None)]
      /\ filter isWrite tr = []
      /\ state w' = state w.
Proof.
  intros lot2 w.
  assert (Hrf : rangeFault w = None) by reflexivity.
  assert (Hnf : nextFault w = None) by reflexivity.
  split; [exact Hrf|]. split; [exact Hnf|].
  destruct (@GetAllSlots_returns_every_entry w Hrf Hnf)
    as (n & w' & tr & slots & Hrun & Hslots & Hlen & Hnth & Hback & _ & Hopen & Hwr & Hst).
  exists n, w', tr, slots. split; [exact Hrun|].
  split; [rewrite Hslots; vm_compute; reflexivity|].
  repeat split; assumption.
Defined.

(** C8: on every host and on every way out of [GetAllSlots], by return or
    by panic, the iterator the host handed out is closed, once, as the last
    call; between the opening and the closing the only calls are [HasNext]
    and [Next] on that iterator.  When the host hands out no iterator there
    is none to close: the only call made is the opening, and the function
    panics. *)
Theorem GetAllSlots_closes_iterator
        (W : Type) (h : Handler W) (n : nat) (w w' : W) (tr : Trace)
        (out : Outcome (list ParkingSlot * error)) :
  exec h n GetAllSlots w = Some (w', tr, out) ->
  exists w1 oit e,
    h _ (GetStateByRange "" "") w = (w1, (oit, e))
    /\ match oit with
       | Some it =>
         exists body cerr,
           tr = Ev (GetStateByRange "" "") (Some it, e) :: body ++ [Ev (Close it) cerr]
           /\ forallb (isScanStep it) body = true
           /\ filter (isClose it) tr = [Ev (Close it) cerr]
       | None => tr = [Ev (GetStateByRange "" "") (None, e)] /\ out = Panicked
       end.
Proof.
  intros Hex. apply GetAllSlots_exec_inv in Hex as (w1 & oit & e & Hopen & Hrest).
  exists w1, oit, e. split; [exact Hopen|].
  destruct oit as [it|].
  - destruct Hrest as (w2 & body & cerr & Hloop & _ & ->).
    apply GetAllSlots_loop_inv in Hloop as [Hsteps _].
    exists body, cerr. split; [reflexivity|]. split; [exact Hsteps|].
    apply scan_steps_filters in Hsteps as (_ & _ & Hc & _).
    cbn [filter isClose]. rewrite filter_app, Hc. cbn. rewrite Nat.eqb_refl. reflexivity.
  - destruct Hrest as (_ & -> & ->). auto.
Qed.

Lemma GetAllSlots_closes_iterator_witness :
  let tr := [Ev (GetStateByRange "" "") (Some 0, None);
             Ev (HasNext 0) true;
             Ev (Next 0) (None, Some "scan broken");
             Ev (Close 0) None] in
  exec ledger.handle 10 GetAllSlots stallingWorld
  = Some (ledger.withCursors stallingWorld [mkCursor [mkKV "A" (encodeSlot lot1)] true],
          tr, Panicked)
  /\ exists body cerr,
      tr = Ev (GetStateByRange "" "") (Some 0, None) :: body ++ [Ev (Close 0) cerr]
      /\ forallb (isScanStep 0) body = true
      /\ filter (isClose 0) tr = [Ev (Close 0) cerr].
Proof.
  intros tr.
  assert (Hrun : exec ledger.handle 10 GetAllSlots stallingWorld
                 = Some (ledger.withCursors stallingWorld
                           [mkCursor [mkKV "A" (encodeSlot lot1)] true],
                         tr, Panicked)) by (vm_compute; reflexivity).
  split; [exact Hrun|].
  destruct (GetAllSlots_closes_iterator ledger.handle _ _ Hrun) as (w1 & oit & e & Hopen & H).
  cbn in Hopen. injection Hopen as <- <- <-. exact H.
Defined.

(** ** Encoding and validation *)

(** C9: [json.Marshal] of a [ParkingSlot] never gives an error, whatever
    the fields hold, so on every host an error returned by [UpdateStatus]
    is the answer of its [PutState]. *)
Theorem Marshal_slot_never_fails :
  (forall slot : ParkingSlot, snd (json.Marshal slot) = None)
  /\ (forall (W : Type) (h : Handler W) (n : nat) (w w' : W) (tr : Trace) (err : string)
             (id : string) (occupied : bool) (location : string),
         exec h n (UpdateStatus id occupied location) w = Some (w', tr, Some err) ->
         exists value, In (Ev (PutState id value) (Some err)) tr).
Proof.
  split.
  - intros slot. rewrite Marshal_slot. reflexivity.
  - intros W h n w w' tr err id occupied location Hex.
    apply UpdateStatus_exec_inv in Hex as (w1 & now & _ & _ & ->).
    eexists. right. left. reflexivity.
Qed.

Lemma Marshal_slot_never_fails_witness :
  snd (json.Marshal lot1) = None
  /\ exists value,
      In (Ev (PutState "A" value) (Some "put rejected"))
         [Ev time_Now noon; Ev (PutState "A" (encodeSlot lot1)) (Some "put rejected")].
Proof.
  assert (Hrun : exec ledger.handle 3 (UpdateStatus "A" true "Lot1") rejectingWorld
                 = Some (rejectingWorld,
                         [Ev time_Now noon;
                          Ev (PutState "A" (encodeSlot lot1)) (Some "put rejected")],
                         Some "put rejected")) by (vm_compute; reflexivity).
  split.
  - exact (proj1 Marshal_slot_never_fails lot1).
  - exact (proj2 Marshal_slot_never_fails _ _ _ _ _ _ _ _ _ _ Hrun).
Defined.

(** The encoder does refuse values: a struct with a channel in it. *)
Example Marshal_refuses_channel :
  encode.encodeValue (VStruct [("id", VString "A"); ("done", VChan)])
  = inr "json: unsupported type: chan".
Proof. reflexivity. Qed.

(** C10: with the empty string as id, [UpdateStatus] on every host reads
    the clock, builds the record and puts it under the empty key; its
    result is the answer of that put, and nothing else can make it fail. *)
Theorem UpdateStatus_empty_id
        (W : Type) (h : Handler W) (n : nat) (w : W) (occupied : bool) (location : string) :
  exec h (S (S (S n))) (UpdateStatus "" occupied location) w
  = (let (w1, now) := h _ time_Now w in
     let value := fst (json.Marshal (slotAt "" occupied location now)) in
     let (w2, res) := h _ (PutState "" value) w1 in
     Some (w2, [Ev time_Now now; Ev (PutState "" value) res], res)).
Proof.
  rewrite UpdateStatus_exec. destruct (h _ time_Now w) as [w1 now].
  rewrite Marshal_slot. reflexivity.
Qed.

(** On the ledger the record then sits under the empty key. *)
Example UpdateStatus_empty_id_ledger :
  exists w' tr,
    exec ledger.handle 3 (UpdateStatus "" true "Lot1") emptyWorld = Some (w', tr, None)
    /\ ledger.get "" (state w') = Some (encodeSlot (slotAt "" true "Lot1" noon)).
Proof. do 2 eexists. split; vm_compute; reflexivity. Qed.

(** * Further properties of the two operations *)

(** ** What a run keeps *)

Section ExecKeeps.
Context {W : Type} (h : Handler W).

(** A property of the host state that every answered call keeps, as long
    as the call passes [allowed], is kept by a run whose calls all pass. *)
Lemma exec_keeps {R} (P : W -> Prop) (allowed : Event -> bool) :
  (forall T (e : envE T) w, allowed (Ev e (snd (h e w))) = true -> P w -> P (fst (h e w))) ->
  forall n (t : itree envE R) w w' tr r,
    exec h n t w = Some (w', tr, r) -> forallb allowed tr = true -> P w -> P w'.
Proof.
  intros Hstep n. induction n as [|n IH]; intros t w w' tr r Hex Hall Hw; [discriminate|].
  rewrite exec_S in Hex. destruct (observe t) as [r0|t'|X e k].
  - injection Hex as <- <- <-. exact Hw.
  - eapply IH; eassumption.
  - pose proof (Hstep X e w) as Hs. destruct (h e w) as [w1 a]. cbn [fst snd] in Hs.
    destruct (exec h n (k a) w1) as [[[w2 tr0] r0]|] eqn:E; [|discriminate].
    injection Hex as <- <- <-. cbn [forallb] in Hall. apply andb_prop in Hall as [Ha Hr].
    eapply IH; [exact E|exact Hr|]. apply Hs; assumption.
Qed.
End ExecKeeps.

Lemma yielded_app (tr1 tr2 : Trace) : yielded (tr1 ++ tr2) = yielded tr1 ++ yielded tr2.
Proof.
  induction tr1 as [|ev tr1 IH]; [reflexivity|]. cbn [app yielded].
  destruct (yieldOf ev); rewrite IH; reflexivity.
Qed.

Lemma scanned_after_rounds (it : Iterator) (pre rest : Trace) (p : bool) :
  rounds it pre -> scanned it rest p -> scanned it (pre ++ rest) p.
Proof. induction 1; intros Hs; cbn [app]; [assumption|constructor; auto]. Qed.

Lemma rounds_app (it : Iterator) (pre rest : Trace) :
  rounds it pre -> rounds it rest -> rounds it (pre ++ rest).
Proof. induction 1; intros Hs; cbn [app]; [assumption|constructor; auto]. Qed.

Section Scan.
Context {W : Type} (h : Handler W).

(** The loop on any host: the slots are the decoded entries handed out, and
    the calls are whole rounds up to the call that ends it. *)
Lemma GetAllSlots_loop_trace (n : nat) (w w' : W) (it : Iterator) (tr : Trace)
      (out : Outcome (list ParkingSlot * error)) :
  exec h n (ITree.iter (GetAllSlots_body it) []) w = Some (w', tr, out) ->
  scanned it tr (panicked out)
  /\ match out with
     | Returned (slots, _) => slots = map decodeEntry (yielded tr)
     | Panicked => True
     end.
Proof.
  intros Hex.
  apply (exec_iter_inv h (GetAllSlots_body it)
           (fun slots _ tr => rounds it tr /\ slots = map decodeEntry (yielded tr))
           (fun _ tr out => scanned it tr (panicked out)
                            /\ match out with
                               | Returned (slots, _) => slots = map decodeEntry (yielded tr)
                               | Panicked => True
                               end))
    with (tr := []) in Hex; [exact Hex| |split; [constructor|reflexivity]].
  clear. intros n slots w tr w1 tr1 x [Hr Hs] Hex.
  apply exec_mono with (m := S (S (S n))) in Hex; [|lia].
  rewrite GetAllSlots_body_exec in Hex.
  destruct (h (HasNext it) w) as [wa [|]].
  - destruct (h (Next it) wa) as [wb [[kv|] e]]; cbn [fst] in Hex;
      injection Hex as <- <- <-.
    + split.
      * apply rounds_app; [assumption|repeat constructor].
      * rewrite yielded_app, map_app, Hs. reflexivity.
    + split; [|exact I]. apply scanned_after_rounds; [assumption|constructor].
  - injection Hex as <- <- <-. split.
    + apply scanned_after_rounds; [assumption|constructor].
    + rewrite yielded_app, app_nil_r. exact Hs.
Qed.
End Scan.

(** X1: on every host, when [GetAllSlots] returns, its error is nil and its
    slots are the decodings of the entries [Next] handed out, one slot an
    entry and in that order: an entry that does not decode is neither left
    out nor reported. *)
Theorem GetAllSlots_collects_yielded
        (W : Type) (h : Handler W) (n : nat) (w w' : W) (tr : Trace)
        (slots : list ParkingSlot) (err : error) :
  exec h n GetAllSlots w = Some (w', tr, Returned (slots, err)) ->
  err = None /\ slots = map decodeEntry (yielded tr) /\ length slots = length (yielded tr).
Proof.
  intros Hex. apply GetAllSlots_exec_inv in Hex as (w1 & oit & e & Hopen & Hrest).
  destruct oit as [it|]; [|destruct Hrest as (_ & _ & Hout); discriminate Hout].
  destruct Hrest as (w2 & body & cerr & Hloop & _ & ->).
  pose proof (GetAllSlots_loop_inv _ _ _ _ _ Hloop) as [_ Herr].
  apply GetAllSlots_loop_trace in Hloop as [_ Hslots].
  assert (Hy : yielded (Ev (GetStateByRange "" "") (Some it, e) :: body ++ [Ev (Close it) cerr])
               = yielded body).
  { cbn [yielded yieldOf]. rewrite yielded_app. cbn. apply app_nil_r. }
  rewrite Hy. subst slots. rewrite length_map. auto.
Qed.

Lemma GetAllSlots_collects_yielded_witness :
  exists w' tr slots,
    exec ledger.handle 10 GetAllSlots corruptWorld = Some (w', tr, Returned (slots, None))
    /\ yielded tr = [mkKV "A" (bytes_of_string "garbage")]
    /\ (@None string = None /\ slots = map decodeEntry (yielded tr)
        /\ length slots = length (yielded tr)).
Proof.
  do 3 eexists. split; [vm_compute; reflexivity|]. split; [reflexivity|].
  eapply (@GetAllSlots_collects_yielded World ledger.handle 10 corruptWorld).
  vm_compute. reflexivity.
Defined.

(** X2: on every host the scan follows the iterator's protocol.  After the
    opening, [GetAllSlots] asks [HasNext] before every [Next], calls [Next]
    only after [HasNext] answered true, and makes no call but the closing
    after [HasNext] answered false or [Next] handed out nil; it panics
    exactly when the last [Next] handed out nil, and returns exactly when
    the last [HasNext] answered false.  When no iterator was handed out the
    opening is the only call, and [GetAllSlots] panics. *)
Theorem GetAllSlots_follows_protocol
        (W : Type) (h : Handler W) (n : nat) (w w' : W) (tr : Trace)
        (out : Outcome (list ParkingSlot * error)) :
  exec h n GetAllSlots w = Some (w', tr, out) ->
  exists w1 oit e,
    h _ (GetStateByRange "" "") w = (w1, (oit, e))
    /\ match oit with
       | Some it =>
         exists body cerr,
           tr = Ev (GetStateByRange "" "") (Some it, e) :: body ++ [Ev (Close it) cerr]
           /\ scanned it body (panicked out)
       | None =>
         tr = [Ev (GetStateByRange "" "") (None, e)] /\ out = Panicked /\ w' = w1
       end.
Proof.
  intros Hex. apply GetAllSlots_exec_inv in Hex as (w1 & oit & e & Hopen & Hrest).
  exists w1, oit, e. split; [exact Hopen|].
  destruct oit as [it|].
  - destruct Hrest as (w2 & body & cerr & Hloop & _ & ->).
    apply GetAllSlots_loop_trace in Hloop as [Hs _]. eauto.
  - destruct Hrest as (-> & -> & ->). auto.
Qed.

Lemma GetAllSlots_follows_protocol_witness :
  let tr := [Ev (GetStateByRange "" "") (Some 0, None);
             Ev (HasNext 0) true;
             Ev (Next 0) (Some (mkKV "A" (encodeSlot lot1)), None);
             Ev (HasNext 0) false;
             Ev (Close 0) None] in
  exec ledger.handle 10 GetAllSlots storedWorld
  = Some (ledger.withCursors storedWorld [mkCursor [] true], tr, Returned ([lot1], None))
  /\ exists body cerr,
      tr = Ev (GetStateByRange "" "") (Some 0, None) :: body ++ [Ev (Close 0) cerr]
      /\ scanned 0 body false.
Proof.
  intros tr.
  assert (Hrun : exec ledger.handle 10 GetAllSlots storedWorld
                 = Some (ledger.withCursors storedWorld [mkCursor [] true], tr,
                         Returned ([lot1], None))) by (vm_compute; reflexivity).
  split; [exact Hrun|].
  destruct (GetAllSlots_follows_protocol ledger.handle _ _ Hrun)
    as (w1 & oit & e & Hopen & H).
  cbn in Hopen. injection Hopen as <- <- <-. exact H.
Defined.

(** ** The two operations on the ledger, one after the other *)

Lemma exec_det {W R} (h : Handler W) (n1 n2 : nat) (t : itree envE R) (w : W)
      (r1 r2 : W * Trace * R) :
  exec h n1 t w = Some r1 -> exec h n2 t w = Some r2 -> r1 = r2.
Proof.
  intros H1 H2.
  apply exec_mono with (m := n1 + n2) in H1; [|lia].
  apply exec_mono with (m := n1 + n2) in H2; [|lia]. congruence.
Qed.

Ltac split_matches :=
  repeat match goal with
         | |- context [match ?x with _ => _ end] => destruct x eqn:?; cbn
         end.

Lemma ledger_handle_setting (T : Type) (e : envE T) (u : World) :
  putFault (fst (ledger.handle e u)) = putFault u
  /\ rangeFault (fst (ledger.handle e u)) = rangeFault u
  /\ nextFault (fst (ledger.handle e u)) = nextFault u
  /\ wallClock (fst (ledger.handle e u)) = wallClock u
  /\ txTimestamp (fst (ledger.handle e u)) = txTimestamp u.
Proof. destruct e; cbn; split_matches; auto. Qed.

Lemma ledger_handle_state (T : Type) (e : envE T) (u : World) :
  notWrite (Ev e (snd (ledger.handle e u))) = true ->
  state (fst (ledger.handle e u)) = state u.
Proof. destruct e; cbn; intros H; try discriminate H; split_matches; auto. Qed.

(** No call changes the faults or the clocks of the ledger. *)
Lemma ledger_keeps_setting {R} (n : nat) (t : itree envE R) (w w' : World) (tr : Trace) (r : R) :
  exec ledger.handle n t w = Some (w', tr, r) ->
  putFault w' = putFault w /\ rangeFault w' = rangeFault w /\ nextFault w' = nextFault w
  /\ wallClock w' = wallClock w /\ txTimestamp w' = txTimestamp w.
Proof.
  intros Hex.
  apply (exec_keeps ledger.handle
           (fun u => putFault u = putFault w /\ rangeFault u = rangeFault w
                     /\ nextFault u = nextFault w /\ wallClock u = wallClock w
                     /\ txTimestamp u = txTimestamp w)
           (fun _ => true)) with (n := n) (t := t) (w := w) (tr := tr) (r := r); auto.
  - clear. intros T e u _ (H1 & H2 & H3 & H4 & H5).
    destruct (ledger_handle_setting e u) as (E1 & E2 & E3 & E4 & E5).
    rewrite E1, E2, E3, E4, E5. auto.
  - clear. induction tr; cbn; auto.
Qed.

(** Only a put changes the world state. *)
Lemma ledger_keeps_state {R} (n : nat) (t : itree envE R) (w w' : World) (tr : Trace) (r : R) :
  exec ledger.handle n t w = Some (w', tr, r) ->
  forallb notWrite tr = true -> state w' = state w.
Proof.
  intros Hex Hall.
  apply (exec_keeps ledger.handle (fun u => state u = state w) notWrite)
    with (n := n) (t := t) (w := w) (tr := tr) (r := r); auto.
  clear. intros T e u Hallowed H. rewrite ledger_handle_state; assumption.
Qed.

Lemma scan_steps_notWrite (it : Iterator) (body : Trace) :
  forallb (isScanStep it) body = true -> forallb notWrite body = true.
Proof.
  induction body as [|[T e a] body IH]; intros H; [reflexivity|].
  cbn [forallb] in *. apply andb_prop in H as [He Hb]. rewrite (IH Hb), andb_true_r.
  destruct e; try discriminate He; reflexivity.
Qed.

(** On any host [GetAllSlots] makes no put. *)
Lemma GetAllSlots_notWrite {W} (h : Handler W) (n : nat) (w w' : W) (tr : Trace)
      (out : Outcome (list ParkingSlot * error)) :
  exec h n GetAllSlots w = Some (w', tr, out) -> forallb notWrite tr = true.
Proof.
  intros Hex. apply GetAllSlots_exec_inv in Hex as (w1 & oit & e & Hopen & Hrest).
  destruct oit as [it|].
  - destruct Hrest as (w2 & body & cerr & Hloop & _ & ->).
    apply GetAllSlots_loop_inv in Hloop as [Hsteps _].
    apply scan_steps_notWrite in Hsteps.
    cbn [forallb]. rewrite forallb_app, Hsteps. reflexivity.
  - destruct Hrest as (_ & -> & _). reflexivity.
Qed.

(** The scan on a ledger that fails to advance it. *)
Lemma ledger_loop_stalls (it : Iterator) (kv : KV) (l : list KV) (w : World) (e : string) :
  ledger.cursor w it = mkCursor (kv :: l) false -> nextFault w = Some e ->
  exec ledger.handle 4 (ITree.iter (GetAllSlots_body it) []) w
  = Some (w, [Ev (HasNext it) true; Ev (Next it) (None, Some e)], Panicked).
Proof.
  intros Hcur Hnf. rewrite exec_iter_unfold.
  eapply exec_bind_le with (n1 := 3) (n2 := 1) (tr2 := []).
  - rewrite GetAllSlots_body_exec. cbn [ledger.handle]. rewrite Hcur, Hnf. cbn. reflexivity.
  - reflexivity.
  - lia.
  - reflexivity.
Qed.

(** The scan of a range with no entry. *)
Lemma ledger_loop_empty (it : Iterator) (w : World) :
  ledger.cursor w it = mkCursor [] false ->
  exec ledger.handle 4 (ITree.iter (GetAllSlots_body it) []) w
  = Some (w, [Ev (HasNext it) false], Returned ([], None)).
Proof.
  intros Hcur. rewrite exec_iter_unfold.
  eapply exec_bind_le with (n1 := 3) (n2 := 1) (tr2 := []).
  - rewrite GetAllSlots_body_exec. cbn [ledger.handle]. rewrite Hcur. reflexivity.
  - reflexivity.
  - lia.
  - reflexivity.
Qed.

(** From a run of the loop on the iterator just opened to a run of
    [GetAllSlots]. *)
Lemma ledger_GetAllSlots_around (n : nat) (w w2 : World) (tr : Trace)
      (out : Outcome (list ParkingSlot * error)) :
  rangeFault w = None ->
  exec ledger.handle n (ITree.iter (GetAllSlots_body (length (cursors w))) [])
       (ledger.withCursors w (cursors w ++ [mkCursor (state w) false]))
  = Some (w2, tr, out) ->
  exists w' tr', exec ledger.handle (S (n + 3)) GetAllSlots w = Some (w', tr', out).
Proof.
  intros Hrf Hloop. do 2 eexists.
  unfold GetAllSlots. rewrite exec_bind_trigger. cbn [ledger.handle]. rewrite Hrf.
  rewrite ledgerFacts.filter_inRange_all.
  erewrite exec_bind_le with (n1 := n) (n2 := 3);
    [reflexivity | exact Hloop | rewrite exec_bind_trigger; cbn; reflexivity | lia | reflexivity].
Qed.

(** On every ledger [GetAllSlots] ends, as [ledgerOutcome] says. *)
Lemma ledger_GetAllSlots_ends (w : World) :
  exists n w' tr, exec ledger.handle n GetAllSlots w = Some (w', tr, ledgerOutcome w).
Proof.
  unfold ledgerOutcome.
  destruct (rangeFault w) as [e|] eqn:Hrf.
  - exists 2, w, [Ev (GetStateByRange "" "") (None, Some e)].
    unfold GetAllSlots. rewrite exec_bind_trigger. cbn [ledger.handle]. rewrite Hrf. reflexivity.
  - assert (Hcur : ledger.cursor (ledger.withCursors w (cursors w ++ [mkCursor (state w) false]))
                                 (length (cursors w)) = mkCursor (state w) false).
    { unfold ledger.cursor. cbn. rewrite nth_middle. reflexivity. }
    destruct (nextFault w) as [e|] eqn:Hnf.
    + pose proof (@ledger_GetAllSlots_around 4 w) as Haround.
      destruct (state w) as [|kv l] eqn:Hst.
      * destruct (Haround _ _ _ Hrf (ledger_loop_empty _ _ Hcur)) as (w' & tr' & Hrun).
        exists (S (4 + 3)), w', tr'. exact Hrun.
      * destruct (Haround _ _ _ Hrf (@ledger_loop_stalls _ kv l _ e Hcur Hnf))
          as (w' & tr' & Hrun).
        exists (S (4 + 3)), w', tr'. exact Hrun.
    + destruct (@ledger_GetAllSlots w Hrf Hnf) as (n & w' & tr & Hrun & _).
      exists n, w', tr. destruct (state w); exact Hrun.
Qed.

Lemma ledgerOutcome_returned (w : World) (slots : list ParkingSlot) (err : error) :
  ledgerOutcome w = Returned (slots, err) -> slots = map decodeEntry (state w) /\ err = None.
Proof.
  unfold ledgerOutcome. destruct (rangeFault w); [discriminate|].
  destruct (nextFault w); [destruct (state w); [|discriminate]|];
    intros H; injection H as <- <-; auto.
Qed.

Lemma ledger_GetAllSlots_outcome (n : nat) (w w' : World) (tr : Trace)
      (out : Outcome (list ParkingSlot * error)) :
  exec ledger.handle n GetAllSlots w = Some (w', tr, out) ->
  out = ledgerOutcome w /\ state w' = state w.
Proof.
  intros Hex. split.
  - destruct (ledger_GetAllSlots_ends w) as (m & u & tr' & Hrun).
    pose proof (@exec_det _ _ _ _ _ _ _ _ _ Hex Hrun) as E. congruence.
  - eapply ledger_keeps_state; [exact Hex|]. eapply GetAllSlots_notWrite. exact Hex.
Qed.

(** X3: on the ledger [GetAllSlots] always ends, and how it ends is fixed
    by the world state and the faults of the host: in a panic when the host
    refuses to open the scan, or fails to advance it while an entry is
    pending; otherwise (also when the host would fail to advance a scan of
    an empty state) with every entry decoded, under a nil error.  The world
    state and the faults are left as they were. *)
Theorem GetAllSlots_on_ledger (w : World) :
  exists n w' tr,
    exec ledger.handle n GetAllSlots w = Some (w', tr, ledgerOutcome w)
    /\ state w' = state w
    /\ putFault w' = putFault w /\ rangeFault w' = rangeFault w /\ nextFault w' = nextFault w.
Proof.
  destruct (ledger_GetAllSlots_ends w) as (n & w' & tr & Hrun).
  exists n, w', tr. split; [exact Hrun|].
  split; [apply (@ledger_GetAllSlots_outcome _ _ _ _ _ Hrun)|].
  destruct (@ledger_keeps_setting _ _ _ _ _ _ _ Hrun) as (H1 & H2 & H3 & _). auto.
Qed.

(** X4: [GetAllSlots] can be repeated: on the ledger, a second call right
    after a first ends as the first did, with the same slots in the same
    order, and the world state is still what it was. *)
Theorem GetAllSlots_repeatable
        (w w1 w2 : World) (n1 n2 : nat) (tr1 tr2 : Trace)
        (out1 out2 : Outcome (list ParkingSlot * error)) :
  exec ledger.handle n1 GetAllSlots w = Some (w1, tr1, out1) ->
  exec ledger.handle n2 GetAllSlots w1 = Some (w2, tr2, out2) ->
  out2 = out1 /\ state w2 = state w.
Proof.
  intros H1 H2.
  destruct (@ledger_GetAllSlots_outcome _ _ _ _ _ H1) as [E1 S1].
  destruct (@ledger_GetAllSlots_outcome _ _ _ _ _ H2) as [E2 S2].
  destruct (@ledger_keeps_setting _ _ _ _ _ _ _ H1) as (_ & Hr & Hn & _).
  split; [|congruence].
  subst out1 out2. unfold ledgerOutcome. rewrite Hr, Hn, S1. reflexivity.
Qed.

Lemma GetAllSlots_repeatable_witness :
  let w1 := ledger.withCursors storedWorld [mkCursor [] true] in
  let w2 := ledger.withCursors storedWorld [mkCursor [] true; mkCursor [] true] in
  exists tr1 tr2,
    exec ledger.handle 10 GetAllSlots storedWorld = Some (w1, tr1, Returned ([lot1], None))
    /\ exec ledger.handle 10 GetAllSlots w1 = Some (w2, tr2, Returned ([lot1], None))
    /\ (Returned ([lot1], @None string) = Returned ([lot1], None)
        /\ state w2 = state storedWorld).
Proof.
  intros w1 w2. do 2 eexists.
  assert (H1 : exec ledger.handle 10 GetAllSlots storedWorld
               = Some (w1, [Ev (GetStateByRange "" "") (Some 0, None);
                            Ev (HasNext 0) true;
                            Ev (Next 0) (Some (mkKV "A" (encodeSlot lot1)), None);
                            Ev (HasNext 0) false; Ev (Close 0) None],
                       Returned ([lot1], None))) by (vm_compute; reflexivity).
  assert (H2 : exec ledger.handle 10 GetAllSlots w1
               = Some (w2, [Ev (GetStateByRange "" "") (Some 1, None);
                            Ev (HasNext 1) true;
                            Ev (Next 1) (Some (mkKV "A" (encodeSlot lot1)), None);
                            Ev (HasNext 1) false; Ev (Close 1) None],
                       Returned ([lot1], None))) by (vm_compute; reflexivity).
  split; [exact H1|]. split; [exact H2|].
  exact (@GetAllSlots_repeatable _ _ _ _ _ _ _ _ _ H1 H2).
Defined.

Lemma length_put_absent (key : string) (value : bytes) (st : list KV) :
  ledger.get key st = None -> length (ledger.put key value st) = S (length st).
Proof.
  induction st as [|kv rest IH]; cbn; [reflexivity|].
  destruct (String.eqb (Key kv) key) eqn:Ek; [discriminate|]. intros Hg.
  destruct (String.compare key (Key kv)) eqn:E; cbn; auto.
  apply String.compare_eq_iff in E. apply String.eqb_neq in Ek. congruence.
Qed.

Lemma get_above (key : string) (st : list KV) :
  Forall (fun kv => ledger.keyLt key (Key kv)) st -> ledger.get key st = None.
Proof.
  induction 1 as [|kv rest Hkv Hrest IH]; cbn; [reflexivity|].
  rewrite (ledgerFacts.keyLt_neq Hkv). exact IH.
Qed.

Lemma length_put_present (key : string) (value old : bytes) (st : list KV) :
  ledger.sorted st -> ledger.get key st = Some old ->
  length (ledger.put key value st) = length st.
Proof.
  induction 1 as [|kv rest Hall Hs IH]; cbn; [discriminate|].
  destruct (String.compare key (Key kv)) eqn:E; cbn [length].
  - reflexivity.
  - intros Hg. exfalso.
    assert (Hnone : ledger.get key (kv :: rest) = None).
    { apply get_above. constructor; [exact E|].
      eapply Forall_impl; [|exact Hall]. cbn. intros kv' H'.
      eapply ledgerFacts.keyLt_trans; eassumption. }
    cbn in Hnone. congruence.
  - rewrite (ledgerFacts.keyLt_neq' (ledgerFacts.compare_Gt_keyLt _ _ E)).
    intros Hg. f_equal. apply IH. exact Hg.
Qed.

(** X5: on the ledger a successful [UpdateStatus] makes the listing one
    slot longer when its id was not stored, and leaves its length alone when
    the id was stored: the record is added or replaced, never duplicated. *)
Theorem UpdateStatus_listing_length
        (w w1 wa wb : World) (n na nb : nat) (tr tra trb : Trace)
        (id : string) (occupied : bool) (location : string)
        (before after : list ParkingSlot) (ea eb : error) :
  ledger.sorted (state w) ->
  exec ledger.handle n (UpdateStatus id occupied location) w = Some (w1, tr, None) ->
  exec ledger.handle na GetAllSlots w = Some (wa, tra, Returned (before, ea)) ->
  exec ledger.handle nb GetAllSlots w1 = Some (wb, trb, Returned (after, eb)) ->
  length after = match ledger.get id (state w) with
                 | Some _ => length before
                 | None => S (length before)
                 end.
Proof.
  intros Hs Hup Ha Hb.
  apply ledger_UpdateStatus in Hup as [Hres ->].
  destruct (putFault w); [discriminate Hres|].
  apply ledger_GetAllSlots_outcome in Ha as [Ha _].
  apply ledger_GetAllSlots_outcome in Hb as [Hb _].
  symmetry in Ha, Hb.
  apply ledgerOutcome_returned in Ha as [-> _].
  apply ledgerOutcome_returned in Hb as [-> _].
  cbn [state ledger.withState]. rewrite !length_map.
  destruct (ledger.get id (state w)) eqn:Hg.
  - eapply length_put_present; eassumption.
  - apply length_put_absent. assumption.
Qed.

Lemma UpdateStatus_listing_length_witness :
  let v := encodeSlot (slotAt "B" false "Lot2" noon) in
  let w1 := ledger.withState storedWorld [mkKV "A" (encodeSlot lot1); mkKV "B" v] in
  ledger.sorted (state storedWorld)
  /\ length [lot1; slotAt "B" false "Lot2" noon]
     = match ledger.get "B" (state storedWorld) with
       | Some _ => length [lot1]
       | None => S (length [lot1])
       end.
Proof.
  intros v w1.
  assert (Hs : ledger.sorted (state storedWorld)) by (repeat constructor).
  assert (Hup : exec ledger.handle 3 (UpdateStatus "B" false "Lot2") storedWorld
                = Some (w1, [Ev time_Now noon; Ev (PutState "B" v) None], None))
    by (vm_compute; reflexivity).
  assert (Ha : exec ledger.handle 10 GetAllSlots storedWorld
               = Some (ledger.withCursors storedWorld [mkCursor [] true],
                       [Ev (GetStateByRange "" "") (Some 0, None);
                        Ev (HasNext 0) true;
                        Ev (Next 0) (Some (mkKV "A" (encodeSlot lot1)), None);
                        Ev (HasNext 0) false; Ev (Close 0) None],
                       Returned ([lot1], None))) by (vm_compute; reflexivity).
  assert (Hb : exec ledger.handle 10 GetAllSlots w1
               = Some (ledger.withCursors w1 [mkCursor [] true],
                       [Ev (GetStateByRange "" "") (Some 0, None);
                        Ev (HasNext 0) true;
                        Ev (Next 0) (Some (mkKV "A" (encodeSlot lot1)), None);
                        Ev (HasNext 0) true;
                        Ev (Next 0) (Some (mkKV "B" v), None);
                        Ev (HasNext 0) false; Ev (Close 0) None],
                       Returned ([lot1; slotAt "B" false "Lot2" noon], None)))
    by (vm_compute; reflexivity).
  split; [exact Hs|].
  exact (@UpdateStatus_listing_length _ _ _ _ _ _ _ _ _ _ _ _ _ _ _ _ _ Hs Hup Ha Hb).
Defined.

(** ** The registry the contract builds *)

Lemma registry_empty : registry [].
Proof. split; constructor. Qed.

(** X6: on the ledger [UpdateStatus] with an id that is valid UTF-8 keeps
    the registry well formed, whether the put succeeds or fails: keys stay
    strictly ascending, and every entry is the encoding of a record whose ID
    is the key it is stored under. *)
Theorem UpdateStatus_keeps_registry
        (w w' : World) (n : nat) (tr : Trace) (res : error)
        (id : string) (occupied : bool) (location : string) :
  registry (state w) -> utf8.ValidString id = true ->
  exec ledger.handle n (UpdateStatus id occupied location) w = Some (w', tr, res) ->
  registry (state w').
Proof.
  intros [Hs Hok] Hid Hex. apply ledger_UpdateStatus in Hex as [_ ->].
  destruct (putFault w); [split; assumption|]. cbn [state ledger.withState]. split.
  - apply ledgerFacts.sorted_put. assumption.
  - apply ledgerFacts.Forall_put; [|assumption].
    split; [exact Hid|]. exists (slotAt id occupied location (wallClock w)).
    rewrite Marshal_slot. auto.
Qed.

Lemma UpdateStatus_keeps_registry_witness :
  registry (state emptyWorld) /\ utf8.ValidString "S1" = true
  /\ registry [mkKV "S1" (encodeSlot (slotAt "S1" true "Garage-North" noon))].
Proof.
  split; [exact registry_empty|]. split; [reflexivity|].
  apply (@UpdateStatus_keeps_registry emptyWorld
           (ledger.withState emptyWorld
              [mkKV "S1" (encodeSlot (slotAt "S1" true "Garage-North" noon))])
           3 [Ev time_Now noon;
              Ev (PutState "S1" (encodeSlot (slotAt "S1" true "Garage-North" noon))) None]
           None "S1" true "Garage-North" registry_empty);
    vm_compute; reflexivity.
Defined.

Lemma entryOK_decodes (kv : KV) :
  entryOK kv ->
  ID (decodeEntry kv) = Key kv /\ snd (json.Unmarshal (Value kv) zeroSlot) = None.
Proof.
  intros (Hv & slot & Hval & Hid). unfold decodeEntry.
  rewrite Hval, Marshal_slot. cbn [fst]. rewrite jsonFacts.Unmarshal_encodeSlot. cbn.
  rewrite Hid. split; [|reflexivity]. apply utf8Facts.ValidString_coerceString. exact Hv.
Qed.

Lemma sorted_ascending (st : list KV) : ledger.sorted st -> ascending (map Key st).
Proof.
  induction 1 as [|kv rest Hall Hs IH]; cbn; constructor; [|assumption].
  apply Forall_map. exact Hall.
Qed.

Lemma ascending_NoDup (ks : list string) : ascending ks -> NoDup ks.
Proof.
  induction 1 as [|k rest Hall Ha IH]; constructor; [|assumption].
  intros Hin. rewrite Forall_forall in Hall. apply Hall in Hin.
  apply ledgerFacts.keyLt_neq in Hin. rewrite String.eqb_refl in Hin. discriminate.
Qed.

(** X7: on a well-formed registry, when [GetAllSlots] returns, the IDs of
    the slots are the keys of the world state, in strictly ascending order
    and so without a repeat, and every stored entry decodes under a nil
    error. *)
Theorem GetAllSlots_lists_each_id_once
        (w w' : World) (n : nat) (tr : Trace) (slots : list ParkingSlot) (err : error) :
  registry (state w) ->
  exec ledger.handle n GetAllSlots w = Some (w', tr, Returned (slots, err)) ->
  map ID slots = map Key (state w)
  /\ ascending (map ID slots)
  /\ NoDup (map ID slots)
  /\ Forall (fun kv => snd (json.Unmarshal (Value kv) zeroSlot) = None) (state w).
Proof.
  intros [Hs Hok] Hex.
  apply ledger_GetAllSlots_outcome in Hex as [Hout _]. symmetry in Hout.
  apply ledgerOutcome_returned in Hout as [-> _].
  assert (Hids : map ID (map decodeEntry (state w)) = map Key (state w)).
  { rewrite map_map. apply map_ext_in. intros kv Hin.
    rewrite Forall_forall in Hok. apply (entryOK_decodes (Hok _ Hin)). }
  rewrite Hids. split; [reflexivity|].
  split; [apply sorted_ascending; assumption|].
  split; [apply ascending_NoDup, sorted_ascending; assumption|].
  eapply Forall_impl; [|exact Hok]. intros kv H. apply (entryOK_decodes H).
Qed.

Lemma GetAllSlots_lists_each_id_once_witness :
  registry (state storedWorld)
  /\ map ID [lot1] = map Key (state storedWorld)
  /\ ascending (map ID [lot1])
  /\ NoDup (map ID [lot1])
  /\ Forall (fun kv => snd (json.Unmarshal (Value kv) zeroSlot) = None) (state storedWorld).
Proof.
  assert (Hreg : registry (state storedWorld)).
  { split; [repeat constructor|]. constructor; [|constructor].
    split; [reflexivity|]. exists lot1. rewrite Marshal_slot. auto. }
  assert (Hrun : exec ledger.handle 10 GetAllSlots storedWorld
                 = Some (ledger.withCursors storedWorld [mkCursor [] true],
                         [Ev (GetStateByRange "" "") (Some 0, None);
                          Ev (HasNext 0) true;
                          Ev (Next 0) (Some (mkKV "A" (encodeSlot lot1)), None);
                          Ev (HasNext 0) false; Ev (Close 0) None],
                         Returned ([lot1], None))) by (vm_compute; reflexivity).
  split; [exact Hreg|].
  exact (@GetAllSlots_lists_each_id_once _ _ _ _ _ _ Hreg Hrun).
Defined.

(** ** What is written, and what comes back *)

(** X8: on every host the value [UpdateStatus] puts is one [json.Unmarshal]
    accepts: it decodes under a nil error to the record that was built,
    with each string coerced to valid UTF-8 and the occupied flag as
    given. *)
Theorem UpdateStatus_writes_decodable
        (W : Type) (h : Handler W) (n : nat) (w w' : W) (tr : Trace) (res : error)
        (id : string) (occupied : bool) (location : string) :
  exec h n (UpdateStatus id occupied location) w = Some (w', tr, res) ->
  exists value,
    written tr = [(id, value)]
    /\ json.Unmarshal value zeroSlot
       = (coerceSlot (slotAt id occupied location (snd (h _ time_Now w))), None)
    /\ Occupied (fst (json.Unmarshal value zeroSlot)) = occupied.
Proof.
  intros Hex. apply UpdateStatus_exec_inv in Hex as (w1 & now & Hnow & _ & ->).
  rewrite Hnow. cbn [snd]. eexists. split; [reflexivity|].
  rewrite jsonFacts.Unmarshal_encodeSlot. auto.
Qed.

Lemma UpdateStatus_writes_decodable_witness :
  exists value,
    written [Ev time_Now noon; Ev (PutState "A" (encodeSlot (slotAt "A" true badLocation noon))) None]
    = [("A", value)]
    /\ json.Unmarshal value zeroSlot
       = (coerceSlot (slotAt "A" true badLocation (snd (ledger.handle time_Now emptyWorld))),
          None)
    /\ Occupied (fst (json.Unmarshal value zeroSlot)) = true.
Proof.
  apply (@UpdateStatus_writes_decodable World ledger.handle 3 emptyWorld
           (ledger.withState emptyWorld
              [mkKV "A" (encodeSlot (slotAt "A" true badLocation noon))])
           _ None "A" true badLocation).
  vm_compute. reflexivity.
Defined.

Lemma bytes_of_string_app (s1 s2 : string) :
  bytes_of_string (s1 ++ s2)%string = bytes_of_string s1 ++ bytes_of_string s2.
Proof. induction s1 as [|c s1 IH]; cbn; [reflexivity|]. f_equal. exact IH. Qed.

Lemma isASCII_app (a b : bytes) : isASCII (a ++ b) = isASCII a && isASCII b.
Proof. apply forallb_app. Qed.

Lemma isASCII_coerce_loop (n : nat) :
  forall s : bytes, isASCII s = true -> utf8.coerce_loop n s = firstn n s.
Proof.
  induction n as [|n IH]; intros s Hs; [destruct s; reflexivity|].
  destruct s as [|c s]; [reflexivity|].
  cbn [isASCII forallb] in Hs. apply andb_prop in Hs as [Hc Hs].
  cbn [utf8.coerce_loop firstn]. unfold utf8.RuneSelf. rewrite Hc. f_equal. apply IH. exact Hs.
Qed.

Lemma isASCII_coerceString (s : string) :
  isASCII (bytes_of_string s) = true -> coerceString s = s.
Proof.
  intros Hs. unfold coerceString, utf8.coerce. rewrite isASCII_coerce_loop by assumption.
  rewrite firstn_all. apply string_of_list_ascii_of_string.
Qed.

Lemma isASCII_digits (d : Decimal.uint) :
  isASCII (bytes_of_string (NilEmpty.string_of_uint d)) = true.
Proof. induction d; cbn; auto. Qed.

Lemma isASCII_decimal (n : nat) : isASCII (bytes_of_string (decimal n)) = true.
Proof.
  unfold decimal, NilZero.string_of_uint.
  destruct (Nat.to_uint n); try reflexivity; apply isASCII_digits.
Qed.

Lemma isASCII_zeros (k : nat) : isASCII (bytes_of_string (zeros k)) = true.
Proof. induction k; cbn; auto. Qed.

Lemma isASCII_appendInt (n width : nat) :
  isASCII (bytes_of_string (appendInt n width)) = true.
Proof.
  unfold appendInt. rewrite bytes_of_string_app, isASCII_app, isASCII_zeros, isASCII_decimal.
  reflexivity.
Qed.

Lemma isASCII_formatZone (offset : Z) : isASCII (bytes_of_string (formatZone offset)) = true.
Proof.
  unfold formatZone. destruct (offset =? 0)%Z; [reflexivity|].
  rewrite !bytes_of_string_app, !isASCII_app, !isASCII_appendInt.
  destruct (Z.quot offset 60 <? 0)%Z; reflexivity.
Qed.

(** The timestamp is ASCII. *)
Lemma isASCII_Format_RFC3339 (t : Time) : isASCII (bytes_of_string (Format_RFC3339 t)) = true.
Proof.
  unfold Format_RFC3339.
  rewrite !bytes_of_string_app, !isASCII_app, !isASCII_appendInt, isASCII_formatZone.
  reflexivity.
Qed.

(** X9: for every id and location, valid UTF-8 or not, after a successful
    [UpdateStatus] a [GetAllSlots] on a host that serves the scan returns a
    sequence that includes the record written, whole: the id and location
    with each byte that is not valid UTF-8 replaced by U+FFFD, the occupied
    flag as given, and as timestamp the RFC3339 text of the local clock
    reading at the write, byte for byte. *)
Theorem GetAllSlots_returns_record_written
        (w w1 : World) (id : string) (occupied : bool) (location : string)
        (n1 : nat) (tr1 : Trace) :
  rangeFault w = None -> nextFault w = None ->
  exec ledger.handle n1 (UpdateStatus id occupied location) w = Some (w1, tr1, None) ->
  exists n w2 tr2 slots,
    exec ledger.handle n GetAllSlots w1 = Some (w2, tr2, Returned (slots, None))
    /\ In {| ID := coerceString id;
             Location := coerceString location;
             Occupied := occupied;
             Timestamp := Format_RFC3339 (wallClock w) |} slots.
Proof.
  intros Hrf Hnf Hex.
  apply ledger_UpdateStatus in Hex as [Hres ->].
  destruct (putFault w) as [err|]; [discriminate Hres|].
  set (slot := slotAt id occupied location (wallClock w)).
  set (w1 := ledger.withState w (ledger.put id (encodeSlot slot) (state w))).
  destruct (@ledger_GetAllSlots w1 Hrf Hnf) as (n & w2 & tr2 & Hrun & _ & _).
  exists n, w2, tr2, (map decodeEntry (state w1)). split; [exact Hrun|].
  replace {| ID := coerceString id; Location := coerceString location; Occupied := occupied;
             Timestamp := Format_RFC3339 (wallClock w) |}
    with (decodeEntry (mkKV id (encodeSlot slot))).
  - apply in_map. apply ledgerFacts.In_put.
  - rewrite decodeEntry_encodeSlot. unfold coerceSlot, slot, slotAt. cbn [ID Location Occupied Timestamp].
    rewrite (@isASCII_coerceString _ (isASCII_Format_RFC3339 (wallClock w))). reflexivity.
Qed.

Lemma GetAllSlots_returns_record_written_witness :
  let w1 := ledger.withState emptyWorld
              [mkKV "A" (encodeSlot (slotAt "A" true badLocation noon))] in
  exists n w2 tr2 slots,
    exec ledger.handle n GetAllSlots w1 = Some (w2, tr2, Returned (slots, None))
    /\ In {| ID := coerceString "A";
             Location := coerceString badLocation;
             Occupied := true;
             Timestamp := Format_RFC3339 (wallClock emptyWorld) |} slots.
Proof.
  intros w1.
  apply (@GetAllSlots_returns_record_written emptyWorld w1 "A" true badLocation 3
           [Ev time_Now noon;
            Ev (PutState "A" (encodeSlot (slotAt "A" true badLocation noon))) None]);
    vm_compute; reflexivity.
Defined.

(** ** main *)

Section Main.
Context {W : Type} (h : forall T, mainE T -> W -> W * T).

Lemma execMain_bind_ret {A R} (n : nat) (a : A) (k : A -> itree mainE R) (w : W) :
  execMain h n (ITree.bind (Ret a) k) w = execMain h n (k a) w.
Proof. destruct n; reflexivity. Qed.

Lemma execMain_bind_trigger {T R} (n : nat) (e : mainE T) (k : T -> itree mainE R) (w : W) :
  execMain h (S n) (ITree.bind (ITree.trigger e) k) w
  = (let (w', a) := h e w in
     match execMain h n (k a) w' with
     | Some (w'', tr, r) => Some (w'', MEv e a :: tr, r)
     | None => None
     end).
Proof.
  cbn [execMain]. simpl. destruct (h e w) as [w' a].
  change (ITree.subst k (Ret a)) with (ITree.bind (Ret a) k).
  rewrite execMain_bind_ret. reflexivity.
Qed.

Lemma execMain_trigger {T} (n : nat) (e : mainE T) (w : W) :
  execMain h (S (S n)) (ITree.trigger e) w = (let (w', a) := h e w in Some (w', [MEv e a], a)).
Proof. simpl. destruct (h e w). reflexivity. Qed.

Lemma main_exec (n : nat) (w : W) :
  execMain h (S (S (S (S n)))) main w
  = (let (w1, created) := h NewChaincode w in
     match snd created with
     | Some msg =>
       let text := ("Error create parking chaincode: " ++ msg)%string in
       let (w2, u) := h (Printf text) w1 in
       Some (w2, [MEv NewChaincode created; MEv (Printf text) u], u)
     | None =>
       let (w2, started) := h (Start (fst created)) w1 in
       match started with
       | Some msg =>
         let text := ("Error starting parking chaincode: " ++ msg)%string in
         let (w3, u) := h (Printf text) w2 in
         Some (w3, [MEv NewChaincode created; MEv (Start (fst created)) started;
                    MEv (Printf text) u], u)
       | None =>
         Some (w2, [MEv NewChaincode created; MEv (Start (fst created)) started], tt)
       end
     end).
Proof.
  unfold main. rewrite execMain_bind_trigger. unfold error.
  destruct (@h (option Chaincode * option string)%type NewChaincode w) as [w1 [cc [msg|]]];
    cbn [fst snd]; cbv beta iota.
  - rewrite execMain_trigger. destruct (h (Printf _) w1) as [w2 u]. reflexivity.
  - rewrite execMain_bind_trigger.
    destruct (@h (option string) (Start cc) w1) as [w2 [msg|]]; cbv beta iota.
    + rewrite execMain_trigger. destruct (h (Printf _) w2) as [w3 u]. reflexivity.
    + reflexivity.
Qed.

End Main.

(** ** One update, seen through the listing *)

(** Where [put] writes in a state whose keys ascend: after the entries
    with a smaller key, in the place of the entry with this key when there
    is one, before the entries with a greater key. *)
Lemma put_split (key : string) (value : bytes) (st : list KV) :
  ledger.sorted st ->
  exists l1 l2,
    Forall (fun kv => ledger.keyLt (Key kv) key) l1
    /\ Forall (fun kv => ledger.keyLt key (Key kv)) l2
    /\ st = l1 ++ match ledger.get key st with
                  | Some old => [mkKV key old]
                  | None => []
                  end ++ l2
    /\ ledger.put key value st = l1 ++ mkKV key value :: l2.
Proof.
  induction 1 as [|kv rest Hall Hs IH].
  - exists [], []. cbn. auto.
  - cbn [ledger.put ledger.get]. destruct (String.compare key (Key kv)) eqn:E.
    + apply String_as_OT.cmp_eq in E. destruct kv as [k v]. cbn [Key Value] in *. subst k.
      rewrite String.eqb_refl. exists [], rest. cbn. auto.
    + assert (Hlt : ledger.keyLt key (Key kv)) by exact E.
      assert (Hrest : Forall (fun kv' => ledger.keyLt key (Key kv')) rest).
      { eapply Forall_impl; [|exact Hall]. cbn. intros kv' H'.
        eapply ledgerFacts.keyLt_trans; eassumption. }
      rewrite (ledgerFacts.keyLt_neq Hlt), (get_above Hrest).
      exists [], (kv :: rest). cbn. auto.
    + destruct IH as (l1 & l2 & H1 & H2 & Hst & Hput).
      pose proof (ledgerFacts.compare_Gt_keyLt _ _ E) as Hlt.
      rewrite (ledgerFacts.keyLt_neq' Hlt).
      exists (kv :: l1), l2. rewrite Hput. cbn [app].
      split; [constructor; assumption|]. split; [exact H2|].
      split; [f_equal; exact Hst|reflexivity].
Qed.

(** X11: on a ledger whose keys ascend, a successful [UpdateStatus]
    changes the listing of [GetAllSlots] at one position.  The slots before
    it, those of the smaller keys, and the slots after it, those of the
    greater keys, are the ones listed before the update, in the same order;
    at the position stands the record just written, as it reads back; it
    takes the place of the record that was stored under the id, when there
    was one, and is a new slot of the listing when there was none. *)
Theorem UpdateStatus_changes_one_position
        (w w1 wa wb : World) (n na nb : nat) (tr tra trb : Trace)
        (id : string) (occupied : bool) (location : string)
        (before after : list ParkingSlot) (ea eb : error) :
  ledger.sorted (state w) ->
  exec ledger.handle n (UpdateStatus id occupied location) w = Some (w1, tr, None) ->
  exec ledger.handle na GetAllSlots w = Some (wa, tra, Returned (before, ea)) ->
  exec ledger.handle nb GetAllSlots w1 = Some (wb, trb, Returned (after, eb)) ->
  exists l1 l2,
    Forall (fun kv => ledger.keyLt (Key kv) id) l1
    /\ Forall (fun kv => ledger.keyLt id (Key kv)) l2
    /\ before = map decodeEntry l1
                ++ match ledger.get id (state w) with
                   | Some old => [decodeEntry (mkKV id old)]
                   | None => []
                   end
                ++ map decodeEntry l2
    /\ after = map decodeEntry l1
               ++ coerceSlot (slotAt id occupied location (wallClock w))
               :: map decodeEntry l2.
Proof.
  intros Hs Hup Ha Hb.
  apply ledger_UpdateStatus in Hup as [Hres ->].
  destruct (putFault w); [discriminate Hres|].
  apply ledger_GetAllSlots_outcome in Ha as [Ha _].
  apply ledger_GetAllSlots_outcome in Hb as [Hb _].
  symmetry in Ha, Hb.
  apply ledgerOutcome_returned in Ha as [-> _].
  apply ledgerOutcome_returned in Hb as [-> _].
  cbn [state ledger.withState].
  destruct (@put_split id (encodeSlot (slotAt id occupied location (wallClock w))) _ Hs)
    as (l1 & l2 & H1 & H2 & Hst & Hput).
  exists l1, l2. split; [exact H1|]. split; [exact H2|].
  rewrite Hput. rewrite Hst at 1. rewrite !map_app. cbn [map].
  rewrite decodeEntry_encodeSlot.
  split; [|reflexivity].
  destruct (ledger.get id (state w)); reflexivity.
Qed.

Lemma UpdateStatus_changes_one_position_witness :
  ledger.sorted (state storedWorld)
  /\ exists l1 l2,
      Forall (fun kv => ledger.keyLt (Key kv) "A") l1
      /\ Forall (fun kv => ledger.keyLt "A" (Key kv)) l2
      /\ [lot1] = map decodeEntry l1
                  ++ match ledger.get "A" (state storedWorld) with
                     | Some old => [decodeEntry (mkKV "A" old)]
                     | None => []
                     end
                  ++ map decodeEntry l2
      /\ [coerceSlot (slotAt "A" false "Lot9" noon)]
         = map decodeEntry l1
           ++ coerceSlot (slotAt "A" false "Lot9" (wallClock storedWorld))
           :: map decodeEntry l2.
Proof.
  pose (v := encodeSlot (slotAt "A" false "Lot9" noon)).
  pose (w1 := ledger.withState storedWorld [mkKV "A" v]).
  assert (Hs : ledger.sorted (state storedWorld)) by (repeat constructor).
  assert (Hup : exec ledger.handle 3 (UpdateStatus "A" false "Lot9") storedWorld
                = Some (w1, [Ev time_Now noon; Ev (PutState "A" v) None], None))
    by (vm_compute; reflexivity).
  assert (Ha : exec ledger.handle 10 GetAllSlots storedWorld
               = Some (ledger.withCursors storedWorld [mkCursor [] true],
                       [Ev (GetStateByRange "" "") (Some 0, None);
                        Ev (HasNext 0) true;
                        Ev (Next 0) (Some (mkKV "A" (encodeSlot lot1)), None);
                        Ev (HasNext 0) false; Ev (Close 0) None],
                       Returned ([lot1], None))) by (vm_compute; reflexivity).
  assert (Hb : exec ledger.handle 10 GetAllSlots w1
               = Some (ledger.withCursors w1 [mkCursor [] true],
                       [Ev (GetStateByRange "" "") (Some 0, None);
                        Ev (HasNext 0) true;
                        Ev (Next 0) (Some (mkKV "A" v), None);
                        Ev (HasNext 0) false; Ev (Close 0) None],
                       Returned ([coerceSlot (slotAt "A" false "Lot9" noon)], None)))
    by (vm_compute; reflexivity).
  split; [exact Hs|].
  exact (@UpdateStatus_changes_one_position _ _ _ _ _ _ _ _ _ _ _ _ _ _ _ _ _ Hs Hup Ha Hb).
Defined.

(** ** Overwriting *)

Lemma filter_key_none (key : string) (l : list KV) :
  Forall (fun kv => String.eqb (Key kv) key = false) l ->
  filter (fun kv => String.eqb (Key kv) key) l = [].
Proof.
  induction 1 as [|kv rest Hkv Hrest IH]; cbn; [reflexivity|]. rewrite Hkv. exact IH.
Qed.

(** In a state whose keys ascend the entries under a key are the one
    [get] finds. *)
Lemma filter_key_sorted (key : string) (value : bytes) (st : list KV) :
  ledger.sorted st -> ledger.get key st = Some value ->
  filter (fun kv => String.eqb (Key kv) key) st = [mkKV key value].
Proof.
  intros Hs Hg.
  destruct (@put_split key value _ Hs) as (l1 & l2 & H1 & H2 & Hst & _).
  rewrite Hg in Hst. rewrite Hst, !filter_app.
  rewrite (@filter_key_none key l1), (@filter_key_none key l2).
  - cbn. rewrite String.eqb_refl. reflexivity.
  - eapply Forall_impl; [|exact H2]. cbn. intros kv H. apply ledgerFacts.keyLt_neq. exact H.
  - eapply Forall_impl; [|exact H1]. cbn. intros kv H. apply ledgerFacts.keyLt_neq'. exact H.
Qed.

(** On well-formed entries, choosing the slots by ID is choosing the
    entries by key. *)
Lemma filter_ID_decodeEntry (id : string) (st : list KV) :
  Forall entryOK st ->
  filter (fun slot => String.eqb (ID slot) id) (map decodeEntry st)
  = map decodeEntry (filter (fun kv => String.eqb (Key kv) id) st).
Proof.
  induction 1 as [|kv rest Hkv Hrest IH]; cbn [map filter]; [reflexivity|].
  rewrite (proj1 (entryOK_decodes Hkv)), IH.
  destruct (String.eqb (Key kv) id); reflexivity.
Qed.

(** C5, as stated, fails.  Two successful calls for the id "A", the second
    with the location made of the single byte 0xFF, leave one entry under
    "A"; the record it holds, which is also the only record [GetAllSlots]
    lists, has the location U+FFFD, not the second call's argument. *)
Lemma overwrite_invalid_utf8 :
  exists w1 tr1 w2 tr2 value w3 tr3,
    exec ledger.handle 3 (UpdateStatus "A" true "Lot1") emptyWorld = Some (w1, tr1, None)
    /\ exec ledger.handle 3 (UpdateStatus "A" false badLocation) w1 = Some (w2, tr2, None)
    /\ ledger.keyCount "A" (state w2) = 1
    /\ ledger.get "A" (state w2) = Some value
    /\ json.Unmarshal value zeroSlot
       = (mkSlot "A" replacementChar false "2024-03-07T12:00:00Z", None)
    /\ exec ledger.handle 10 GetAllSlots w2
       = Some (w3, tr3, Returned ([mkSlot "A" replacementChar false "2024-03-07T12:00:00Z"], None))
    /\ replacementChar <> badLocation.
Proof.
  do 7 eexists.
  split; [vm_compute; reflexivity|].
  split; [vm_compute; reflexivity|].
  split; [vm_compute; reflexivity|].
  split; [vm_compute; reflexivity|].
  split; [vm_compute; reflexivity|].
  split; [vm_compute; reflexivity|].
  discriminate.
Qed.

(** C5: on a ledger whose keys ascend and that accepts the put, two calls
    for the same id, one after the other, return without error and leave
    one entry under that id.  Its value is the encoding of the record built
    from the second call's arguments, whatever the first call stored, and
    it decodes under a nil error to that record with its strings coerced to
    valid UTF-8, so to the record itself when the id and the second
    location are valid UTF-8.  On a well-formed registry and for such an
    id, [GetAllSlots] then lists one record with that ID, the second
    call's. *)
Theorem UpdateStatus_last_write_wins
        (w : World) (id : string) (occupied1 occupied2 : bool) (location1 location2 : string) :
  ledger.sorted (state w) -> putFault w = None ->
  exists w1 w2 tr1 tr2 value,
    (forall n,
        exec ledger.handle (3 + n) (UpdateStatus id occupied1 location1) w
        = Some (w1, tr1, None))
    /\ (forall n,
           exec ledger.handle (3 + n) (UpdateStatus id occupied2 location2) w1
           = Some (w2, tr2, None))
    /\ ledger.keyCount id (state w2) = 1
    /\ ledger.get id (state w2) = Some value
    /\ value = fst (json.Marshal (slotAt id occupied2 location2 (wallClock w1)))
    /\ json.Unmarshal value zeroSlot
       = ({| ID := coerceString id; Location := coerceString location2;
             Occupied := occupied2; Timestamp := Format_RFC3339 (wallClock w1) |}, None)
    /\ (utf8.ValidString id = true -> utf8.ValidString location2 = true ->
        json.Unmarshal value zeroSlot
        = (slotAt id occupied2 location2 (wallClock w1), None))
    /\ (registry (state w) -> utf8.ValidString id = true ->
        rangeFault w = None -> nextFault w = None ->
        exists n w3 tr3 slots,
          exec ledger.handle n GetAllSlots w2 = Some (w3, tr3, Returned (slots, None))
          /\ filter (fun slot => String.eqb (ID slot) id) slots
             = [{| ID := id; Location := coerceString location2;
                   Occupied := occupied2; Timestamp := Format_RFC3339 (wallClock w1) |}]).
Proof.
  intros Hs Hpf.
  set (v1 := encodeSlot (slotAt id occupied1 location1 (wallClock w))).
  set (w1 := ledger.withState w (ledger.put id v1 (state w))).
  set (v2 := encodeSlot (slotAt id occupied2 location2 (wallClock w1))).
  set (w2 := ledger.withState w1 (ledger.put id v2 (state w1))).
  assert (Hs1 : ledger.sorted (state w1)) by (apply ledgerFacts.sorted_put; exact Hs).
  assert (Hdec : json.Unmarshal v2 zeroSlot
                 = ({| ID := coerceString id; Location := coerceString location2;
                       Occupied := occupied2; Timestamp := Format_RFC3339 (wallClock w1) |},
                    None)).
  { unfold v2. rewrite jsonFacts.Unmarshal_encodeSlot. unfold coerceSlot, slotAt.
    cbn [ID Location Occupied Timestamp].
    rewrite (@isASCII_coerceString _ (isASCII_Format_RFC3339 (wallClock w1))). reflexivity. }
  eexists w1, w2, _, _, v2.
  split.
  { intros n. rewrite ledger_UpdateStatus_returns, Hpf. reflexivity. }
  split.
  { intros n. rewrite ledger_UpdateStatus_returns.
    change (putFault w1) with (putFault w). rewrite Hpf. reflexivity. }
  split; [apply ledgerFacts.keyCount_put; exact Hs1|].
  split; [apply ledgerFacts.get_put_same|].
  split; [rewrite Marshal_slot; reflexivity|].
  split; [exact Hdec|].
  split.
  { intros Hid Hloc. rewrite Hdec. unfold slotAt.
    rewrite !utf8Facts.ValidString_coerceString by assumption. reflexivity. }
  intros [_ Hok] Hid Hrf Hnf.
  assert (Hok2 : Forall entryOK (state w2)).
  { cbn [state ledger.withState w1 w2].
    apply ledgerFacts.Forall_put;
      [split; [exact Hid|]; eexists; rewrite Marshal_slot; split; reflexivity|].
    apply ledgerFacts.Forall_put;
      [split; [exact Hid|]; eexists; rewrite Marshal_slot; split; reflexivity|].
    exact Hok. }
  destruct (@ledger_GetAllSlots w2 Hrf Hnf) as (n & w3 & tr3 & Hrun & _).
  exists n, w3, tr3, (map decodeEntry (state w2)). split; [exact Hrun|].
  rewrite (@filter_ID_decodeEntry id _ Hok2).
  rewrite (@filter_key_sorted id v2 (state w2)).
  - cbn [map]. unfold decodeEntry. cbn [Value fst]. rewrite Hdec. cbn [fst].
    rewrite (@utf8Facts.ValidString_coerceString _ Hid). reflexivity.
  - apply ledgerFacts.sorted_put. exact Hs1.
  - apply ledgerFacts.get_put_same.
Qed.

Lemma UpdateStatus_last_write_wins_witness :
  ledger.sorted (state storedWorld) /\ putFault storedWorld = None
  /\ exists w1 w2 tr1 tr2 value,
      (forall n,
          exec ledger.handle (3 + n) (UpdateStatus "A" true "Lot1") storedWorld
          = Some (w1, tr1, None))
      /\ (forall n,
             exec ledger.handle (3 + n) (UpdateStatus "A" false "Lot2") w1
             = Some (w2, tr2, None))
      /\ ledger.keyCount "A" (state w2) = 1
      /\ ledger.get "A" (state w2) = Some value
      /\ json.Unmarshal value zeroSlot = (slotAt "A" false "Lot2" (wallClock w1), None)
      /\ exists n w3 tr3 slots,
          exec ledger.handle n GetAllSlots w2 = Some (w3, tr3, Returned (slots, None))
          /\ filter (fun slot => String.eqb (ID slot) "A") slots
             = [{| ID := "A"; Location := coerceString "Lot2";
                   Occupied := false; Timestamp := Format_RFC3339 (wallClock w1) |}].
Proof.
  assert (Hs : ledger.sorted (state storedWorld)) by (repeat constructor).
  assert (Hpf : putFault storedWorld = None) by reflexivity.
  assert (Hreg : registry (state storedWorld)).
  { split; [exact Hs|]. constructor; [|constructor].
    split; [reflexivity|]. exists lot1. rewrite Marshal_slot. auto. }
  split; [exact Hs|]. split; [exact Hpf|].
  destruct (@UpdateStatus_last_write_wins storedWorld "A" true false "Lot1" "Lot2" Hs Hpf)
    as (w1 & w2 & tr1 & tr2 & value & H1 & H2 & Hc & Hg & _ & _ & Hv & Hl).
  exists w1, w2, tr1, tr2, value.
  split; [exact H1|]. split; [exact H2|]. split; [exact Hc|]. split; [exact Hg|].
  split; [apply Hv; reflexivity|].
  apply Hl; [exact Hreg|reflexivity|reflexivity|reflexivity].
Defined.

(** ** The nesting limit of the decoder *)

(** Arrays nested as deep as the scanner allows are read (and the member
    they are the value of, which names no field, is skipped); one level
    more is a syntax error, and the slot is left as it was. *)
Example Unmarshal_nesting_limit :
  json.Unmarshal (nested 9999) zeroSlot = (mkSlot "A" "" false "", None)
  /\ fst (json.Unmarshal (nested 10000) zeroSlot) = zeroSlot
  /\ snd (json.Unmarshal (nested 10000) zeroSlot) <> None.
Proof.
  split; [vm_compute; reflexivity|].
  split; [vm_compute; reflexivity|].
  vm_compute. discriminate.
Qed.
